(** * twitch_recorder.py: a shallow embedding and its verified properties

    The program is one Python class, [TwitchRecorder], whose method
    [record_stream] supervises a single [streamlink] child process.  The
    embedding keeps the program's shape: the object's fields and the outside
    world (process table, file system, log, interaction trace) form one
    state record; every method is a function in a state-and-exception monad;
    every call that leaves the program (HTTP probe, Twitch API, [Popen],
    [wait], [sleep], the clock) asks an environment for its answer.  The
    environment is an arbitrary function of the interaction so far, so a
    theorem quantified over environments covers every behaviour of the
    network, of the platform and of the child process. *)

From Stdlib Require Import ZArith Lia Ascii String.
From stdpp Require Import base tactics option list strings.

Local Open Scope string_scope.
Local Open Scope list_scope.

(** ** Python exceptions *)

(** The exceptions the program distinguishes.  [KeyboardInterrupt] and
    [OtherBaseException] derive from [BaseException] only; the other three
    derive from [Exception].  [OtherException] stands for every [Exception]
    subclass that is neither a [requests] error nor
    [subprocess.TimeoutExpired] ([OSError] from [Popen], errors of the
    Twitch client, ...).  [OtherBaseException] stands for every other class
    below [BaseException] that is no [Exception]: [asyncio.CancelledError],
    which the event loop throws into the coroutine at an [await] when the
    task is cancelled, [SystemExit] and [GeneratorExit].  The string is
    [str(e)]. *)
Inductive exn : Type :=
  | KeyboardInterrupt
  | RequestException (msg : string)
  | TimeoutExpired
  | OtherException (msg : string)
  | OtherBaseException (msg : string).

(** [isinstance(e, Exception)] *)
Definition is_Exception (e : exn) : bool :=
  match e with
  | KeyboardInterrupt => false
  | OtherBaseException _ => false
  | _ => true
  end.

(** [isinstance(e, RequestException)] *)
Definition is_RequestException (e : exn) : bool :=
  match e with
  | RequestException _ => true
  | _ => false
  end.

(** [str(e)], as interpolated by the f-strings of the log calls. *)
Definition str_exn (e : exn) : string :=
  match e with
  | KeyboardInterrupt => ""
  | RequestException msg => msg
  | TimeoutExpired => "Command timed out"
  | OtherException msg => msg
  | OtherBaseException msg => msg
  end.

(** ** Paths ([pathlib.PurePosixPath]) *)

Module Pathlib.

(** A path is its root ([""], ["/"] or ["//"]) and its components. *)
Record Path : Type := mkPath { root : string; parts : list string }.

(** [s.split('/')] *)
Fixpoint split_slash (s : string) : list string :=
  match s with
  | EmptyString => [EmptyString]
  | String c s' =>
      if Ascii.eqb c "/" then EmptyString :: split_slash s'
      else match split_slash s' with
           | [] => [String c EmptyString]
           | x :: xs => String c x :: xs
           end
  end.

(** Components that survive parsing: neither empty nor ["."]. *)
Definition kept (x : string) : bool :=
  negb (String.eqb x "") && negb (String.eqb x ".").

(** POSIX root of a string: exactly two leading slashes are kept, one
    or three and more collapse to one. *)
Definition root_of (s : string) : string :=
  match s with
  | String "/" (String "/" (String "/" _)) => "/"
  | String "/" (String "/" _) => "//"
  | String "/" _ => "/"
  | _ => ""
  end.

(** [Path(s)] *)
Definition parse (s : string) : Path :=
  {| root := root_of s; parts := List.filter kept (split_slash s) |}.

(** [p / s]: an anchored right operand replaces the left one. *)
Definition joinpath (p : Path) (s : string) : Path :=
  let q := parse s in
  if String.eqb (root q) "" then {| root := root p; parts := parts p ++ parts q |}
  else q.

(** ["/".join(parts)] *)
Fixpoint join_slash (l : list string) : string :=
  match l with
  | [] => ""
  | [x] => x
  | x :: l' => x +:+ "/" +:+ join_slash l'
  end.

(** [str(p)] *)
Definition str (p : Path) : string :=
  match root p, parts p with
  | EmptyString, [] => "."
  | r, l => r +:+ join_slash l
  end.

#[global] Instance Path_eq_dec : EqDecision Path.
Proof. solve_decision. Defined.

End Pathlib.
Import Pathlib.

(** ** Wall-clock time ([datetime.datetime]) *)

Record datetime : Type := mkDatetime {
  year : N; month : N; day : N;
  hour : N; minute : N; second : N;
  microsecond : N
}.

(** The ranges the [datetime] type enforces. *)
Definition valid_datetime (d : datetime) : Prop :=
  (1 <= year d <= 9999 /\ 1 <= month d <= 12 /\ 1 <= day d <= 31 /\
   hour d < 24 /\ minute d < 60 /\ second d < 60 /\
   microsecond d < 1000000)%N.

(** The part of a time stamp that [%Y%m%d_%H%M%S] can see. *)
Definition to_second (d : datetime) : N * N * N * N * N * N :=
  (year d, month d, day d, hour d, minute d, second d).

Definition digit (n : N) : ascii := ascii_of_N (48 + n mod 10).

(** [%m], [%d], [%H], [%M], [%S]: two digits, zero padded. *)
Definition pad2 (n : N) : string :=
  String (digit (n / 10)) (String (digit n) EmptyString).

(** Four decimal digits. *)
Definition pad4 (n : N) : string :=
  String (digit (n / 1000)) (String (digit (n / 100))
    (String (digit (n / 10)) (String (digit n) EmptyString))).

(** [%Y]: the year as a decimal number.  CPython hands the format to the
    C library, and the [strftime] of glibc does not pad the year: a year
    below 1000 is printed with the digits it has. *)
Definition fmt_Y (n : N) : string :=
  if (n <? 10)%N then String (digit n) EmptyString
  else if (n <? 100)%N then pad2 n
  else if (n <? 1000)%N then String (digit (n / 100)) (pad2 n)
  else pad4 n.

(** [d.strftime("%Y%m%d_%H%M%S")] *)
Definition strftime (d : datetime) : string :=
  fmt_Y (year d) +:+ pad2 (month d) +:+ pad2 (day d) +:+ "_" +:+
  pad2 (hour d) +:+ pad2 (minute d) +:+ pad2 (second d).

(** ** The world outside the program *)

Definition pid := nat.

(** What the program knows of a child: running, or gone with a return
    code (negative for a signal, as [Popen.returncode] has it).  A child
    counts as running from its [Popen] until the program sees it gone, by
    [poll] or [wait], or kills it; one that has exited unseen still counts,
    so the table never understates the children that are alive. *)
Inductive pstatus : Type :=
  | Running
  | Exited (code : Z).

#[global] Instance pstatus_eq_dec : EqDecision pstatus.
Proof. solve_decision. Defined.

Definition is_running (s : pstatus) : bool :=
  match s with Running => true | Exited _ => false end.

(** Number of children that are alive in a process table. *)
Definition live_count (tbl : list pstatus) : nat :=
  length (List.filter is_running tbl).

(** An authenticated [Twitch] client and a stream record, both opaque. *)
Inductive Session : Type := mkSession (token : nat).
Inductive Stream : Type := mkStream (user_login : string).

(** Every interaction with the outside, in the order it happened (most
    recent first). *)
Inductive event : Type :=
  | EvMkdir (p : Path)
  | EvGet (url : string) (timeout : nat)
  | EvTwitch (client_id client_secret : string)
  | EvGetStreams (user_login : list string)
  | EvNow
  | EvPopen (argv : list string)
  | EvPoll (p : pid)
  | EvSigTerm (p : pid)
  | EvWait (p : pid) (timeout : nat)
  | EvSigKill (p : pid)
  | EvSleep (seconds : nat).

Inductive answer (A : Type) : Type :=
  | Returns (a : A)
  | Raises (e : exn).
Arguments Returns {A} a.
Arguments Raises {A} e.

(** How [Popen.wait(timeout)] on a running child ends. *)
Inductive wait_answer : Type :=
  | WaitExited (code : Z)
  | WaitTimeout
  | WaitInterrupted.

(** The environment answers every outside call from the interaction so
    far.  The network calls and [Popen] may raise any exception, the
    keyboard interrupt and the cancellation of the task included;
    [env_wait] and [env_sleep], blocking calls with no [await] in them,
    tell whether the wait or the sleep is interrupted from the keyboard;
    [env_poll] whether a running child has exited by now.  Signals, [poll]
    and logging do not raise. *)
Record Env : Type := mkEnv {
  env_mkdir : list event -> Path -> answer unit;
  env_get : list event -> string -> nat -> answer unit;
  env_Twitch : list event -> string -> string -> answer Session;
  env_get_streams : list event -> Session -> list string -> answer (list Stream);
  env_now : list event -> datetime;
  env_Popen : list event -> list string -> answer unit;
  env_poll : list event -> pid -> option Z;
  env_wait : list event -> pid -> nat -> wait_answer;
  env_sleep : list event -> nat -> bool
}.

Inductive level : Type := INFO | WARNING | ERROR.

(** ** The state: the [TwitchRecorder] object and the world *)

Record State : Type := mkState {
  (* self *)
  channel : string;
  quality : string;
  output_dir : Path;
  client_id : string;
  client_secret : string;
  twitch : option Session;
  process : option pid;
  (* the world *)
  procs : list pstatus;            (* process table, indexed by pid *)
  history : list (list pstatus);   (* every process table there has been *)
  trace : list event;
  log : list (level * string);     (* most recent first *)
  dirs : list Path;                (* directories that exist *)
  files : list Path                (* paths that exist and are no directory *)
}.

Definition set_twitch (v : option Session) (st : State) : State :=
  mkState (channel st) (quality st) (output_dir st) (client_id st)
    (client_secret st) v (process st) (procs st) (history st) (trace st)
    (log st) (dirs st) (files st).

Definition set_process (v : option pid) (st : State) : State :=
  mkState (channel st) (quality st) (output_dir st) (client_id st)
    (client_secret st) (twitch st) v (procs st) (history st) (trace st)
    (log st) (dirs st) (files st).

(** A new process table is also entered in the history. *)
Definition set_procs (v : list pstatus) (st : State) : State :=
  mkState (channel st) (quality st) (output_dir st) (client_id st)
    (client_secret st) (twitch st) (process st) v (v :: history st) (trace st)
    (log st) (dirs st) (files st).

Definition add_event (ev : event) (st : State) : State :=
  mkState (channel st) (quality st) (output_dir st) (client_id st)
    (client_secret st) (twitch st) (process st) (procs st) (history st)
    (ev :: trace st) (log st) (dirs st) (files st).

Definition add_log (l : level) (msg : string) (st : State) : State :=
  mkState (channel st) (quality st) (output_dir st) (client_id st)
    (client_secret st) (twitch st) (process st) (procs st) (history st)
    (trace st) ((l, msg) :: log st) (dirs st) (files st).

Definition add_dir (p : Path) (st : State) : State :=
  mkState (channel st) (quality st) (output_dir st) (client_id st)
    (client_secret st) (twitch st) (process st) (procs st) (history st)
    (trace st) (log st) (p :: dirs st) (files st).

(** The status of a child; a pid the table does not know is not alive. *)
Definition status_of (tbl : list pstatus) (p : pid) : pstatus :=
  default (Exited 0) (tbl !! p).

(** ** The monad: state, exceptions, and fuel for the two [while] loops *)

Inductive result (A : Type) : Type :=
  | Normal (a : A)        (* the call returned *)
  | Raised (e : exn)      (* the call raised *)
  | OutOfFuel.            (* the loop is still running *)
Arguments Normal {A} a.
Arguments Raised {A} e.
Arguments OutOfFuel {A}.

Definition M (A : Type) : Type := State -> result A * State.

Definition ret {A} (a : A) : M A := fun st => (Normal a, st).

Definition bind {A B} (m : M A) (k : A -> M B) : M B :=
  fun st =>
    match m st with
    | (Normal a, st') => k a st'
    | (Raised e, st') => (Raised e, st')
    | (OutOfFuel, st') => (OutOfFuel, st')
    end.

Definition raise {A} (e : exn) : M A := fun st => (Raised e, st).

(** [try: m  except <guard> as e: h e]; an exception the guard rejects
    goes on to the caller, and so does one raised by the handler. *)
Definition try_except {A} (m : M A) (guard : exn -> bool) (h : exn -> M A) : M A :=
  fun st =>
    match m st with
    | (Raised e, st') => if guard e then h e st' else (Raised e, st')
    | r => r
    end.

Definition modify (f : State -> State) : M unit := fun st => (Normal tt, f st).

Definition of_answer {A} (a : answer A) : M A :=
  match a with
  | Returns v => ret v
  | Raises e => raise e
  end.

Declare Scope py_scope.
Delimit Scope py_scope with py.
Notation "x <- m ;; k" := (bind m (fun x => k))
  (at level 100, m at next level, right associativity) : py_scope.
Notation "m ;; k" := (bind m (fun _ => k))
  (at level 100, right associativity) : py_scope.
Local Open Scope py_scope.

Inductive loop_ctl : Type := Continue | Break.

(** ** The program *)

Section Program.

Variable E : Env.

Definition gets {A} (f : State -> A) : M A := fun st => (Normal (f st), st).

(** *** Library calls *)

(** [logging.info], [logging.warning], [logging.error] *)
Definition logging_info (msg : string) : M unit := modify (add_log INFO msg).
Definition logging_warning (msg : string) : M unit := modify (add_log WARNING msg).
Definition logging_error (msg : string) : M unit := modify (add_log ERROR msg).

(** [str(e)] of the [FileExistsError] that [mkdir] raises for [p]. *)
Definition file_exists_message (p : Path) : string :=
  "[Errno 17] File exists: '" +:+ str p +:+ "'".

(** [p.mkdir(exist_ok=True)]: nothing to do for a directory that is
    there, [FileExistsError] for something else under that name, and
    otherwise the system creates the directory or refuses. *)
Definition mkdir_exist_ok (p : Path) : M unit :=
  fun st =>
    let st1 := add_event (EvMkdir p) st in
    if decide (p ∈ dirs st) then (Normal tt, st1)
    else if decide (p ∈ files st)
    then (Raised (OtherException (file_exists_message p)), st1)
    else match env_mkdir E (trace st) p with
         | Returns _ => (Normal tt, add_dir p st1)
         | Raises e => (Raised e, st1)
         end.

(** [requests.get(url, timeout=timeout)]; the response is not used. *)
Definition requests_get (url : string) (timeout : nat) : M unit :=
  fun st =>
    let st1 := add_event (EvGet url timeout) st in
    match env_get E (trace st) url timeout with
    | Returns _ => (Normal tt, st1)
    | Raises e => (Raised e, st1)
    end.

(** [await Twitch(client_id, client_secret)] *)
Definition Twitch (id secret : string) : M Session :=
  fun st =>
    let st1 := add_event (EvTwitch id secret) st in
    match env_Twitch E (trace st) id secret with
    | Returns s => (Normal s, st1)
    | Raises e => (Raised e, st1)
    end.

(** [tw.get_streams(user_login=logins)], drained into a list. *)
Definition get_streams (tw : Session) (logins : list string) : M (list Stream) :=
  fun st =>
    let st1 := add_event (EvGetStreams logins) st in
    match env_get_streams E (trace st) tw logins with
    | Returns l => (Normal l, st1)
    | Raises e => (Raised e, st1)
    end.

(** [twitchAPI.helper.first]: the first item, or [None]. *)
Definition first (l : list Stream) : option Stream := head l.

(** [bool(x)] for an optional object. *)
Definition truthy {A} (x : option A) : bool :=
  match x with Some _ => true | None => false end.

(** [datetime.datetime.now()] *)
Definition now : M datetime :=
  fun st => (Normal (env_now E (trace st)), add_event EvNow st).

(** [subprocess.Popen(argv, stdout=PIPE, stderr=PIPE)]: the new child
    gets the next pid and runs. *)
Definition Popen (argv : list string) : M pid :=
  fun st =>
    let st1 := add_event (EvPopen argv) st in
    match env_Popen E (trace st) argv with
    | Returns _ => (Normal (length (procs st)), set_procs (procs st ++ [Running]) st1)
    | Raises e => (Raised e, st1)
    end.

(** [p.poll()]: the return code, or [None] while the child runs. *)
Definition poll (p : pid) : M (option Z) :=
  fun st =>
    match status_of (procs st) p with
    | Exited c => (Normal (Some c), st)
    | Running =>
        let st1 := add_event (EvPoll p) st in
        match env_poll E (trace st) p with
        | Some c => (Normal (Some c), set_procs (<[p := Exited c]> (procs st)) st1)
        | None => (Normal None, st1)
        end
    end.

(** [p.terminate()]: SIGTERM, unless the child is known to be gone. *)
Definition terminate (p : pid) : M unit :=
  fun st =>
    match status_of (procs st) p with
    | Exited _ => (Normal tt, st)
    | Running => (Normal tt, add_event (EvSigTerm p) st)
    end.

(** [p.wait(timeout=timeout)] *)
Definition wait (p : pid) (timeout : nat) : M Z :=
  fun st =>
    match status_of (procs st) p with
    | Exited c => (Normal c, st)
    | Running =>
        let st1 := add_event (EvWait p timeout) st in
        match env_wait E (trace st) p timeout with
        | WaitExited c => (Normal c, set_procs (<[p := Exited c]> (procs st)) st1)
        | WaitTimeout => (Raised TimeoutExpired, st1)
        | WaitInterrupted => (Raised KeyboardInterrupt, st1)
        end
    end.

(** [p.kill()]: SIGKILL ends a running child. *)
Definition kill (p : pid) : M unit :=
  fun st =>
    match status_of (procs st) p with
    | Exited _ => (Normal tt, st)
    | Running =>
        (Normal tt, set_procs (<[p := Exited (-9)]> (procs st)) (add_event (EvSigKill p) st))
    end.

(** [time.sleep(seconds)] *)
Definition sleep (seconds : nat) : M unit :=
  fun st =>
    let st1 := add_event (EvSleep seconds) st in
    if env_sleep E (trace st) seconds then (Raised KeyboardInterrupt, st1)
    else (Normal tt, st1).

(** *** [TwitchRecorder] *)

(** [__init__], lines 23-33 *)
Definition TwitchRecorder_init (channel' quality' : string) : M unit :=
  modify (fun st =>
    mkState channel' quality' (parse "recordings") (client_id st)
      (client_secret st) (twitch st) (process st) (procs st) (history st)
      (trace st) (log st) (dirs st) (files st)) ;;
  od <- gets output_dir ;;
  mkdir_exist_ok od ;;
  modify (fun st =>
    mkState (channel st) (quality st) (output_dir st) "YOUR_CLIENT_ID"
      "YOUR_CLIENT_SECRET" None None (procs st) (history st)
      (trace st) (log st) (dirs st) (files st)).

(** [initialize_twitch], lines 35-42 *)
Definition initialize_twitch : M unit :=
  try_except
    (id <- gets client_id ;;
     secret <- gets client_secret ;;
     tw <- Twitch id secret ;;
     modify (set_twitch (Some tw)) ;;
     logging_info "Successfully authenticated with Twitch API")
    is_Exception
    (fun e =>
       logging_error ("Failed to initialize Twitch API: " +:+ str_exn e) ;;
       raise e).

(** [is_stream_live], lines 44-54 *)
Definition is_stream_live : M bool :=
  try_except
    (tw <- gets twitch ;;
     (if truthy tw then ret tt else initialize_twitch) ;;
     tw <- gets twitch ;;
     ch <- gets channel ;;
     match tw with
     | Some s =>
         streams <- get_streams s [ch] ;;
         ret (truthy (first streams))
     | None => raise (OtherException "'NoneType' object has no attribute 'get_streams'")
     end)
    is_Exception
    (fun e =>
       logging_error ("Error checking stream status: " +:+ str_exn e) ;;
       ret false).

Definition endpoints : list string :=
  ["https://1.1.1.1"; "https://8.8.8.8"; "https://www.google.com"].

(** The [for] loop of [is_internet_available], lines 64-70: an
    iteration either returns or goes on to the next endpoint. *)
Fixpoint for_endpoints (l : list string) : M bool :=
  match l with
  | [] => ret false
  | endpoint :: rest =>
      r <- try_except
             (requests_get endpoint 5 ;; ret (Some true))
             is_RequestException
             (fun _ => ret None) ;;
      match r with
      | Some b => ret b
      | None => for_endpoints rest
      end
  end.

(** [is_internet_available], lines 56-70 *)
Definition is_internet_available : M bool := for_endpoints endpoints.

(** [get_output_filename], lines 72-75 *)
Definition get_output_filename : M Path :=
  d <- now ;;
  let timestamp := strftime d in
  od <- gets output_dir ;;
  ch <- gets channel ;;
  ret (joinpath od (ch +:+ "_" +:+ timestamp +:+ ".mp4")).

(** The local [command] of [start_recording], lines 79-90. *)
Definition command (ch q : string) (filename : Path) : list string :=
  ["streamlink"; "--twitch-disable-hosting"; "--twitch-disable-ads";
   "--retry-max"; "5"; "--retry-streams"; "30"; "--stream-timeout"; "60";
   "--twitch-low-latency"; "twitch.tv/" +:+ ch; q; "-o"; str filename].

(** [start_recording], lines 77-97 *)
Definition start_recording (filename : Path) : M unit :=
  ch <- gets channel ;;
  q <- gets quality ;;
  p <- Popen (command ch q filename) ;;
  modify (set_process (Some p)) ;;
  logging_info ("Started recording to " +:+ str filename).

Definition is_TimeoutExpired (e : exn) : bool :=
  match e with TimeoutExpired => true | _ => false end.

(** [stop_recording], lines 99-108 *)
Definition stop_recording : M unit :=
  pr <- gets process ;;
  match pr with
  | None => ret tt
  | Some p =>
      terminate p ;;
      try_except (_ <- wait p 10 ;; ret tt) is_TimeoutExpired (fun _ => kill p) ;;
      modify (set_process None) ;;
      logging_info "Recording stopped"
  end.

(** The inner [while] of [record_stream], lines 127-132. *)
Fixpoint monitor (fuel : nat) : M unit :=
  match fuel with
  | O => fun st => (OutOfFuel, st)
  | S fuel' =>
      pr <- gets process ;;
      match pr with
      | None => ret tt
      | Some p =>
          code <- poll p ;;
          match code with
          | Some _ => ret tt
          | None =>
              live <- is_stream_live ;;
              if negb live
              then logging_info "Stream ended" ;; stop_recording
              else sleep 30 ;; monitor fuel'
          end
      end
  end.

(** The [try] block of [record_stream], lines 114-132. *)
Definition tick_body (fuel : nat) : M loop_ctl :=
  net <- is_internet_available ;;
  if negb net
  then logging_warning "No internet connection" ;; sleep 30 ;; ret Continue
  else
    live <- is_stream_live ;;
    if negb live
    then
      ch <- gets channel ;;
      logging_info ("Channel " +:+ ch +:+ " is not live") ;;
      sleep 30 ;; ret Continue
    else
      filename <- get_output_filename ;;
      start_recording filename ;;
      monitor fuel ;;
      ret Continue.

(** The bodies of the two [except] clauses of [record_stream], lines
    134-141: the first for [KeyboardInterrupt], the second for an
    [Exception].  Which exceptions enter them is the guard of [tick]. *)
Definition tick_handler (e : exn) : M loop_ctl :=
  match e with
  | KeyboardInterrupt =>
      logging_info "Recording interrupted by user" ;;
      stop_recording ;;
      ret Break
  | _ =>
      logging_error ("Unexpected error: " +:+ str_exn e) ;;
      stop_recording ;;
      sleep 30 ;;
      ret Continue
  end.

Definition is_KeyboardInterrupt (e : exn) : bool :=
  match e with KeyboardInterrupt => true | _ => false end.

(** One turn of the outer [while True], lines 113-141: an exception of
    the [try] block is handled when one of the two clauses matches it,
    [except KeyboardInterrupt] or [except Exception]; any other goes on to
    the caller of [record_stream]. *)
Definition tick (fuel : nat) : M loop_ctl :=
  try_except (tick_body fuel)
    (fun e => is_KeyboardInterrupt e || is_Exception e) tick_handler.

(** [record_stream], lines 110-141 *)
Fixpoint record_stream (fuel : nat) : M unit :=
  match fuel with
  | O => fun st => (OutOfFuel, st)
  | S fuel' =>
      c <- tick fuel' ;;
      match c with
      | Break => ret tt
      | Continue => record_stream fuel'
      end
  end.

End Program.

(** The process before the constructor runs: no object yet, no child, an
    empty log, and the given file system. *)
Definition boot (dirs0 files0 : list Path) : State :=
  mkState "" "" (mkPath "" []) "" "" None None [] [[]] [] [] dirs0 files0.

(** * Specification vocabulary *)

(** [triple P m Q]: from every state in [P], [m] ends in a result and a
    state related by [Q].  The monad is a total function, so a triple also
    says that there is such a result. *)
Definition triple {A} (P : State -> Prop) (m : M A)
    (Q : result A -> State -> Prop) : Prop :=
  forall st, P st -> Q (fst (m st)) (snd (m st)).

(** The postcondition used for invariants: [I] holds however the call
    ends, and [J a] as well when it returns [a]. *)
Definition post {A} (I : State -> Prop) (J : A -> State -> Prop)
    (r : result A) (st : State) : Prop :=
  I st /\ match r with Normal a => J a st | _ => True end.

(** [st'] has the process table, its history and the handle of [st]. *)
Definition same_procs (st st' : State) : Prop :=
  procs st' = procs st /\ history st' = history st /\ process st' = process st.

Definition keeps_procs {A} (m : M A) : Prop :=
  forall st, same_procs st (snd (m st)).

(** [st'] has the directories, the files and the output directory of [st]. *)
Definition same_fs (st st' : State) : Prop :=
  dirs st' = dirs st /\ files st' = files st /\ output_dir st' = output_dir st.

Definition keeps_fs {A} (m : M A) : Prop :=
  forall st, same_fs st (snd (m st)).

(** A child that runs is the one the object holds in [self.process]. *)
Definition owned (st : State) : Prop :=
  forall p, procs st !! p = Some Running -> process st = Some p.

(** No process table there has ever been had two running children. *)
Definition never_two (st : State) : Prop :=
  forall tbl, tbl ∈ history st -> live_count tbl <= 1.

Definition Inv (st : State) : Prop := owned st /\ never_two st.

(** No child runs. *)
Definition quiet (st : State) : Prop :=
  forall p, procs st !! p <> Some Running.

Definition stable (P : State -> Prop) : Prop :=
  forall st st', same_procs st st' -> P st -> P st'.

(** Every child that may still run has been sent SIGTERM. *)
Definition signalled (st : State) : Prop :=
  forall p, procs st !! p = Some Running -> EvSigTerm p ∈ trace st.

Definition interrupted_line : level * string :=
  (INFO, "Recording interrupted by user").

(** What holds when a call of the supervisor is over: after a return [J];
    an exception that leaves it is no [Exception], and when it is the
    keyboard interrupt every child that may still run has been sent
    SIGTERM; the call itself never has fuel to run out of when [total] is
    set. *)
Definition ends {A} (total : bool) (J : A -> State -> Prop)
    (r : result A) (st : State) : Prop :=
  Inv st /\
  match r with
  | Normal a => J a st
  | Raised e => is_Exception e = false /\ (e = KeyboardInterrupt -> signalled st)
  | OutOfFuel => total = false
  end.

(** A probe that ended in a [requests] error. *)
Definition unreachable (a : answer unit) : Prop :=
  match a with
  | Raises (RequestException _) => True
  | _ => False
  end.

(** [s] has no path separator. *)
Fixpoint slash_free (s : string) : bool :=
  match s with
  | EmptyString => true
  | String c s' => negb (Ascii.eqb c "/") && slash_free s'
  end.

(** [s] has no underscore. *)
Fixpoint underscore_free (s : string) : bool :=
  match s with
  | EmptyString => true
  | String c s' => negb (Ascii.eqb c "_") && underscore_free s'
  end.

(** The part of the file name that follows the channel. *)
Definition name_tail (d : datetime) : string := "_" +:+ strftime d +:+ ".mp4".

(** Something outside the program removes the directory [p]. *)
Definition world_rmdir (p : Path) (st : State) : State :=
  mkState (channel st) (quality st) (output_dir st) (client_id st)
    (client_secret st) (twitch st) (process st) (procs st) (history st)
    (trace st) (log st) (List.filter (fun d => negb (bool_decide (d = p))) (dirs st))
    (files st).

(** [m] takes every state to one that [R] relates to it, however it
    ends. *)
Definition keeps_rel {A} (R : State -> State -> Prop) (m : M A) : Prop :=
  forall st, R st (snd (m st)).

Definition is_handshake (ev : event) : bool :=
  match ev with EvTwitch _ _ => true | _ => false end.

(** Number of authentication handshakes in a trace. *)
Definition handshakes (tr : list event) : nat :=
  length (List.filter is_handshake tr).

(** A session that [st] has is still the session of [st'], and no
    handshake has been made on the way. *)
Definition session_kept (st st' : State) : Prop :=
  forall s, twitch st = Some s ->
    twitch st' = Some s /\ handshakes (trace st') = handshakes (trace st).

Definition is_launch (ev : event) : bool :=
  match ev with EvPopen _ => true | _ => false end.

(** Number of [Popen] calls in a trace, failed ones included. *)
Definition launches (tr : list event) : nat :=
  length (List.filter is_launch tr).

Definition no_launch (st st' : State) : Prop :=
  launches (trace st') = launches (trace st).

(** The interactions the loop of an object with the given configuration
    makes: the three probes with 5 seconds, the handshake with the
    object's credentials, the stream query for its channel, the clock,
    [streamlink] for its channel and quality, poll and signals, waits of
    10 seconds, sleeps of 30 seconds; and no [mkdir]. *)
Definition expected (ch q id secret : string) (ev : event) : Prop :=
  match ev with
  | EvMkdir _ => False
  | EvGet url timeout => url ∈ endpoints /\ timeout = 5
  | EvTwitch id' secret' => id' = id /\ secret' = secret
  | EvGetStreams logins => logins = [ch]
  | EvNow => True
  | EvPopen argv => exists f, argv = command ch q f
  | EvPoll _ => True
  | EvSigTerm _ => True
  | EvWait _ timeout => timeout = 10
  | EvSigKill _ => True
  | EvSleep seconds => seconds = 30
  end.

(** [tr] is [old] with events added in front that all satisfy [P]. *)
Inductive grows (P : event -> Prop) (old : list event) : list event -> Prop :=
  | grows_refl : grows P old old
  | grows_cons ev tr : P ev -> grows P old tr -> grows P old (ev :: tr).

(** [st'] has the configuration of [st], and its trace is the trace of
    [st] with expected interactions added. *)
Definition steady (st st' : State) : Prop :=
  channel st' = channel st /\ quality st' = quality st /\
  client_id st' = client_id st /\ client_secret st' = client_secret st /\
  grows (expected (channel st) (quality st) (client_id st) (client_secret st))
    (trace st) (trace st').

(** Lexicographic combination of two comparisons. *)
Definition lex (c1 c2 : comparison) : comparison :=
  match c1 with Eq => c2 | _ => c1 end.

(** Which of two wall-clock times comes first, to the second. *)
Definition compare_second (d1 d2 : datetime) : comparison :=
  lex (year d1 ?= year d2)%N
    (lex (month d1 ?= month d2)%N
       (lex (day d1 ?= day d2)%N
          (lex (hour d1 ?= hour d2)%N
             (lex (minute d1 ?= minute d2)%N (second d1 ?= second d2)%N)))).

(** * Scenarios

    Concrete environments and states, for the witnesses and the
    counterexamples. *)

(** An environment in which every call succeeds: probes answer, the
    handshake yields a session, the channel is live, the child runs until
    it is told to stop and then exits at once, nobody interrupts. *)
Definition env_calm : Env :=
  mkEnv (fun _ _ => Returns tt) (fun _ _ _ => Returns tt)
    (fun _ _ _ => Returns (mkSession 1))
    (fun _ _ logins => Returns (map mkStream logins))
    (fun _ => mkDatetime 2024 1 1 12 0 0 0)
    (fun _ _ => Returns tt) (fun _ _ => None)
    (fun _ _ _ => WaitExited (-15)) (fun _ _ => false).

(** The object right after [TwitchRecorder('foo', 'best')]. *)
Definition st_fresh : State :=
  snd (TwitchRecorder_init env_calm "foo" "best" (boot [] [])).

Definition file_foo : Path := parse "recordings/foo_20240101_120000.mp4".

(** The same object after one [start_recording]: child 0 runs. *)
Definition st_recording : State :=
  snd (start_recording env_calm file_foo st_fresh).

(** As [env_calm], but the child exits by itself with code 1 as soon as
    it is polled. *)
Definition env_child_exits : Env :=
  mkEnv (env_mkdir env_calm) (env_get env_calm) (env_Twitch env_calm)
    (env_get_streams env_calm) (env_now env_calm) (env_Popen env_calm)
    (fun _ _ => Some 1%Z) (env_wait env_calm) (env_sleep env_calm).

(** As [env_calm], but the channel is reported offline. *)
Definition env_offline : Env :=
  mkEnv (env_mkdir env_calm) (env_get env_calm) (env_Twitch env_calm)
    (fun _ _ _ => Returns []) (env_now env_calm) (env_Popen env_calm)
    (env_poll env_calm) (env_wait env_calm) (env_sleep env_calm).

(** As [env_calm], but the authentication handshake is refused. *)
Definition env_auth_fails : Env :=
  mkEnv (env_mkdir env_calm) (env_get env_calm)
    (fun _ _ _ => Raises (OtherException "invalid client"))
    (env_get_streams env_calm) (env_now env_calm) (env_Popen env_calm)
    (env_poll env_calm) (env_wait env_calm) (env_sleep env_calm).

(** As [env_calm], but every stream query is rejected: the session has
    expired. *)
Definition env_session_expired : Env :=
  mkEnv (env_mkdir env_calm) (env_get env_calm) (env_Twitch env_calm)
    (fun _ _ _ => Raises (OtherException "401 Unauthorized"))
    (env_now env_calm) (env_Popen env_calm)
    (env_poll env_calm) (env_wait env_calm) (env_sleep env_calm).

(** The fresh object after one successful live check: it has a session. *)
Definition st_session : State := snd (is_stream_live env_calm st_fresh).

(** As [env_calm], but the first probe is interrupted from the keyboard. *)
Definition env_probe_interrupted : Env :=
  mkEnv (env_mkdir env_calm) (fun _ _ _ => Raises KeyboardInterrupt)
    (env_Twitch env_calm) (env_get_streams env_calm) (env_now env_calm)
    (env_Popen env_calm) (env_poll env_calm) (env_wait env_calm)
    (env_sleep env_calm).

(** As [env_calm], but a probe fails with an error that is no
    [RequestException]. *)
Definition env_probe_breaks : Env :=
  mkEnv (env_mkdir env_calm)
    (fun _ _ _ => Raises (OtherException "LocationParseError"))
    (env_Twitch env_calm) (env_get_streams env_calm) (env_now env_calm)
    (env_Popen env_calm) (env_poll env_calm) (env_wait env_calm)
    (env_sleep env_calm).

(** As [env_calm], but the first two endpoints cannot be reached. *)
Definition env_two_down : Env :=
  mkEnv (env_mkdir env_calm)
    (fun _ url _ =>
       if String.eqb url "https://www.google.com" then Returns tt
       else Raises (RequestException "ConnectTimeout"))
    (env_Twitch env_calm) (env_get_streams env_calm) (env_now env_calm)
    (env_Popen env_calm) (env_poll env_calm) (env_wait env_calm)
    (env_sleep env_calm).

(** The fresh object after its output directory has been removed. *)
Definition st_dir_removed : State := world_rmdir (parse "recordings") st_fresh.

(** The object right after [TwitchRecorder(ch, 'best')]. *)
Definition st_channel (ch : string) : State :=
  snd (TwitchRecorder_init env_calm ch "best" (boot [] [])).

(** As [env_calm], one second later. *)
Definition env_later : Env :=
  mkEnv (env_mkdir env_calm) (env_get env_calm) (env_Twitch env_calm)
    (env_get_streams env_calm) (fun _ => mkDatetime 2024 1 1 12 0 1 0)
    (env_Popen env_calm) (env_poll env_calm) (env_wait env_calm)
    (env_sleep env_calm).

(** As [env_calm], but [streamlink] is not installed: [Popen] fails. *)
Definition env_no_streamlink : Env :=
  mkEnv (env_mkdir env_calm) (env_get env_calm) (env_Twitch env_calm)
    (env_get_streams env_calm) (env_now env_calm)
    (fun _ _ => Raises (OtherException "[Errno 2] No such file or directory: 'streamlink'"))
    (env_poll env_calm) (env_wait env_calm) (env_sleep env_calm).

(** As [env_calm], but no endpoint can be reached. *)
Definition env_no_network : Env :=
  mkEnv (env_mkdir env_calm)
    (fun _ _ _ => Raises (RequestException "ConnectionError"))
    (env_Twitch env_calm) (env_get_streams env_calm) (env_now env_calm)
    (env_Popen env_calm) (env_poll env_calm) (env_wait env_calm)
    (env_sleep env_calm).

(** The object with a session after one [start_recording]: child 0
    runs. *)
Definition st_session_recording : State :=
  snd (start_recording env_calm file_foo st_session).

(** As [env_calm], but every sleep is interrupted from the keyboard. *)
Definition env_interrupted : Env :=
  mkEnv (env_mkdir env_calm) (env_get env_calm) (env_Twitch env_calm)
    (env_get_streams env_calm) (env_now env_calm) (env_Popen env_calm)
    (env_poll env_calm) (env_wait env_calm) (fun _ _ => true).

(** As [env_calm], but once a child has been started the task is
    cancelled: the next stream query, an [await], raises
    [asyncio.CancelledError]. *)
Definition env_cancelled : Env :=
  mkEnv (env_mkdir env_calm) (env_get env_calm) (env_Twitch env_calm)
    (fun tr _ logins =>
       if Nat.ltb 0 (launches tr)
       then Raises (OtherBaseException "CancelledError")
       else Returns (map mkStream logins))
    (env_now env_calm) (env_Popen env_calm) (env_poll env_calm)
    (env_wait env_calm) (env_sleep env_calm).

(** As [env_calm], but every wait for a child is interrupted from the
    keyboard. *)
Definition env_wait_interrupted : Env :=
  mkEnv (env_mkdir env_calm) (env_get env_calm) (env_Twitch env_calm)
    (env_get_streams env_calm) (env_now env_calm) (env_Popen env_calm)
    (env_poll env_calm) (fun _ _ _ => WaitInterrupted) (env_sleep env_calm).

(** * Reasoning about the program *)

(** ** Triples for the state-and-exception monad *)

Lemma triple_conseq {A} (P P' : State -> Prop) (m : M A) (Q Q' : result A -> State -> Prop) :
  triple P' m Q' ->
  (forall st, P st -> P' st) ->
  (forall r st, Q' r st -> Q r st) ->
  triple P m Q.
Proof. intros Hm HP HQ st Hst. apply HQ, Hm, HP, Hst. Qed.

Lemma triple_ret {A} (I : State -> Prop) (J : A -> State -> Prop) (a : A) :
  triple (fun st => I st /\ J a st) (ret a) (post I J).
Proof. intros st [HI HJ]. split; assumption. Qed.

Lemma triple_bind {A B} (P I : State -> Prop) (J1 : A -> State -> Prop)
    (J2 : B -> State -> Prop) (m : M A) (k : A -> M B) :
  triple P m (post I J1) ->
  (forall a, triple (fun st => I st /\ J1 a st) (k a) (post I J2)) ->
  triple P (bind m k) (post I J2).
Proof.
  intros Hm Hk st Hst. specialize (Hm st Hst). unfold bind.
  destruct (m st) as [[a|e|] st1]; simpl in *.
  - apply Hk. exact Hm.
  - split; [apply Hm | exact Logic.I].
  - split; [apply Hm | exact Logic.I].
Qed.

Lemma triple_try {A} (P I : State -> Prop) (J : A -> State -> Prop)
    (m : M A) (guard : exn -> bool) (h : exn -> M A) :
  triple P m (post I J) ->
  (forall e, triple I (h e) (post I J)) ->
  triple P (try_except m guard h) (post I J).
Proof.
  intros Hm Hh st Hst. specialize (Hm st Hst). unfold try_except.
  destruct (m st) as [[a|e|] st1]; simpl in *; try exact Hm.
  destruct (guard e).
  - apply Hh, Hm.
  - exact Hm.
Qed.

(** ** Calls that leave the children alone *)

Lemma same_procs_refl st : same_procs st st.
Proof. repeat split. Qed.

Lemma same_procs_trans st1 st2 st3 :
  same_procs st1 st2 -> same_procs st2 st3 -> same_procs st1 st3.
Proof. unfold same_procs. intros (-> & -> & ->) (-> & -> & ->). repeat split. Qed.

Lemma keeps_ret {A} (a : A) : keeps_procs (ret a).
Proof. intros st. apply same_procs_refl. Qed.

Lemma keeps_raise {A} (e : exn) : keeps_procs (@raise A e).
Proof. intros st. apply same_procs_refl. Qed.

Lemma keeps_gets {A} (f : State -> A) : keeps_procs (gets f).
Proof. intros st. apply same_procs_refl. Qed.

Lemma keeps_bind {A B} (m : M A) (k : A -> M B) :
  keeps_procs m -> (forall a, keeps_procs (k a)) -> keeps_procs (bind m k).
Proof.
  intros Hm Hk st. specialize (Hm st). unfold bind.
  destruct (m st) as [[a|e|] st1]; simpl in *; try exact Hm.
  eapply same_procs_trans; [exact Hm | apply Hk].
Qed.

Lemma keeps_try {A} (m : M A) (guard : exn -> bool) (h : exn -> M A) :
  keeps_procs m -> (forall e, keeps_procs (h e)) -> keeps_procs (try_except m guard h).
Proof.
  intros Hm Hh st. specialize (Hm st). unfold try_except.
  destruct (m st) as [[a|e|] st1]; simpl in *; try exact Hm.
  destruct (guard e); [|exact Hm].
  eapply same_procs_trans; [exact Hm | apply Hh].
Qed.

Lemma keeps_modify (f : State -> State) :
  (forall st, same_procs st (f st)) -> keeps_procs (modify f).
Proof. intros Hf st. apply Hf. Qed.

Create HintDb keeps.
#[local] Hint Resolve keeps_ret keeps_raise keeps_gets keeps_bind keeps_try : keeps.

(** A primitive that writes only to the trace or to the log. *)
Ltac keeps_prim :=
  let st := fresh "st" in
  intros st; cbv beta delta [modify]; simpl;
  repeat case_match; repeat split.

Section KeepsProcs.

Variable E : Env.

Lemma keeps_logging_info msg : keeps_procs (logging_info msg).
Proof. keeps_prim. Qed.

Lemma keeps_logging_warning msg : keeps_procs (logging_warning msg).
Proof. keeps_prim. Qed.

Lemma keeps_logging_error msg : keeps_procs (logging_error msg).
Proof. keeps_prim. Qed.

Lemma keeps_requests_get url t : keeps_procs (requests_get E url t).
Proof. unfold requests_get. keeps_prim. Qed.

Lemma keeps_Twitch id secret : keeps_procs (Twitch E id secret).
Proof. unfold Twitch. keeps_prim. Qed.

Lemma keeps_get_streams tw l : keeps_procs (get_streams E tw l).
Proof. unfold get_streams. keeps_prim. Qed.

Lemma keeps_now : keeps_procs (now E).
Proof. keeps_prim. Qed.

Lemma keeps_sleep n : keeps_procs (sleep E n).
Proof. unfold sleep. keeps_prim. Qed.

Lemma keeps_set_twitch v : keeps_procs (modify (set_twitch v)).
Proof. keeps_prim. Qed.

#[local] Hint Resolve keeps_logging_info keeps_logging_warning
  keeps_logging_error keeps_requests_get keeps_Twitch keeps_get_streams
  keeps_now keeps_sleep keeps_set_twitch : keeps.

Lemma keeps_initialize_twitch : keeps_procs (initialize_twitch E).
Proof. unfold initialize_twitch. auto 10 with keeps. Qed.

Lemma keeps_is_stream_live : keeps_procs (is_stream_live E).
Proof.
  unfold is_stream_live. apply keeps_try; [|auto with keeps].
  apply keeps_bind; [auto with keeps|]. intros tw.
  apply keeps_bind.
  { destruct (truthy tw); [auto with keeps | apply keeps_initialize_twitch]. }
  intros _. apply keeps_bind; [auto with keeps|]. intros tw'.
  apply keeps_bind; [auto with keeps|]. intros ch.
  destruct tw'; auto with keeps.
Qed.

Lemma keeps_for_endpoints l : keeps_procs (for_endpoints E l).
Proof.
  induction l as [|endpoint rest IH]; simpl; [auto with keeps|].
  apply keeps_bind; [auto 10 with keeps|].
  intros [b|]; auto with keeps.
Qed.

Lemma keeps_is_internet_available : keeps_procs (is_internet_available E).
Proof. apply keeps_for_endpoints. Qed.

Lemma keeps_get_output_filename : keeps_procs (get_output_filename E).
Proof. unfold get_output_filename. auto 10 with keeps. Qed.

End KeepsProcs.

(** ** The supervisor's invariant *)

Lemma stable_Inv : stable Inv.
Proof.
  intros st st' (Hp & Hh & Hpr) [Ho Hn]. split.
  - intros p. rewrite Hp, Hpr. apply Ho.
  - intros tbl. rewrite Hh. apply Hn.
Qed.

Lemma stable_quiet : stable quiet.
Proof. intros st st' (Hp & _ & _) Hq p. rewrite Hp. apply Hq. Qed.

Lemma triple_keeps {A} (I J : State -> Prop) (m : M A) :
  keeps_procs m -> stable I -> stable J ->
  triple (fun st => I st /\ J st) m (post I (fun _ => J)).
Proof.
  intros Hm HI HJ st [Hi Hj]. specialize (Hm st). split.
  - eapply HI; eassumption.
  - destruct (m st) as [[a|e|] st1]; simpl in *; try exact Logic.I.
    eapply HJ; eassumption.
Qed.

Lemma triple_keeps1 {A} (I : State -> Prop) (m : M A) :
  keeps_procs m -> stable I -> triple I m (post I (fun _ _ => True)).
Proof.
  intros Hm HI st Hi. specialize (Hm st). split.
  - eapply HI; eassumption.
  - destruct (m st) as [[a|e|] st1]; exact Logic.I.
Qed.

Lemma live_count_nil_running (tbl : list pstatus) :
  (forall i, tbl !! i <> Some Running) -> live_count tbl = 0.
Proof.
  unfold live_count. induction tbl as [|s tbl IH]; intros H; [reflexivity|].
  simpl. destruct s; simpl.
  - exfalso. exact (H 0 eq_refl).
  - apply IH. intros i. exact (H (S i)).
Qed.

Lemma live_count_le1 (tbl : list pstatus) (p : nat) :
  (forall i, tbl !! i = Some Running -> i = p) -> live_count tbl <= 1.
Proof.
  revert p. induction tbl as [|s tbl IH]; intros p H; [unfold live_count; simpl; lia|].
  unfold live_count in *. simpl. destruct s; simpl.
  - assert (Hp : 0 = p) by (apply H; reflexivity). subst p.
    fold (live_count tbl). rewrite live_count_nil_running; [lia|].
    intros i Hi. specialize (H (S i) Hi). discriminate.
  - apply (IH (pred p)). intros i Hi. specialize (H (S i) Hi). subst p. reflexivity.
Qed.

Lemma quiet_owned st : quiet st -> owned st.
Proof. intros Hq p Hp. destruct (Hq p Hp). Qed.

Lemma owned_live_le1 st : owned st -> live_count (procs st) <= 1.
Proof.
  intros Ho. destruct (process st) as [p|] eqn:Hpr.
  - apply (live_count_le1 _ p). intros i Hi. specialize (Ho i Hi). congruence.
  - rewrite live_count_nil_running; [lia|]. intros i Hi. specialize (Ho i Hi). congruence.
Qed.

Lemma status_of_running tbl p : status_of tbl p = Running -> tbl !! p = Some Running.
Proof. unfold status_of. destruct (tbl !! p) as [[|c]|]; simpl; congruence. Qed.

Lemma status_of_exited tbl p c : status_of tbl p = Exited c -> tbl !! p <> Some Running.
Proof. unfold status_of. destruct (tbl !! p) as [[|c']|]; simpl; congruence. Qed.

(** Marking the held child as gone leaves no child running. *)
Lemma mark_exited_quiet (tbl : list pstatus) (p : nat) (c : Z) :
  (forall i, tbl !! i = Some Running -> i = p) ->
  forall i, <[p := Exited c]> tbl !! i <> Some Running.
Proof.
  intros H i Hi. destruct (decide (i = p)) as [->|Hne].
  - destruct (decide (p < length tbl)) as [Hlt|Hge].
    + rewrite list_lookup_insert_eq in Hi by exact Hlt. discriminate.
    + rewrite list_insert_ge in Hi by lia. rewrite lookup_ge_None_2 in Hi by lia. discriminate.
  - rewrite list_lookup_insert_ne in Hi by congruence. apply Hne, H, Hi.
Qed.

(** Whatever becomes of the table once no child runs keeps the bound. *)
Lemma never_two_set_procs st tbl :
  never_two st -> live_count tbl <= 1 -> never_two (set_procs tbl st).
Proof.
  intros Hn Hle tbl' Hin. simpl in Hin. apply elem_of_cons in Hin as [->|Hin]; auto.
Qed.

Section Supervisor.

Variable E : Env.

#[local] Hint Resolve keeps_logging_info keeps_logging_warning
  keeps_logging_error keeps_sleep keeps_is_stream_live
  keeps_is_internet_available keeps_get_output_filename : keeps.

Lemma Inv_mark_exited st st1 p c :
  Inv st -> same_procs st st1 ->
  Inv (set_procs (<[p := Exited c]> (procs st)) st1)
  /\ (process st = Some p -> quiet (set_procs (<[p := Exited c]> (procs st)) st1)).
Proof.
  intros [Ho Hn] (Hp & Hh & Hpr).
  assert (Hown : forall i, <[p := Exited c]> (procs st) !! i = Some Running ->
                           procs st !! i = Some Running).
  { intros i Hi. destruct (decide (i = p)) as [->|Hne].
    - destruct (decide (p < length (procs st))) as [Hlt|Hge].
      + rewrite list_lookup_insert_eq in Hi by exact Hlt. discriminate.
      + rewrite list_insert_ge in Hi by lia. exact Hi.
    - rewrite list_lookup_insert_ne in Hi by congruence. exact Hi. }
  assert (Ho' : owned (set_procs (<[p := Exited c]> (procs st)) st1)).
  { intros i Hi. simpl in *. rewrite Hpr. apply Ho, Hown, Hi. }
  split; [split|].
  - exact Ho'.
  - apply never_two_set_procs.
    + intros tbl. rewrite Hh. apply Hn.
    + apply (owned_live_le1 _ Ho').
  - intros Hheld i. simpl. apply mark_exited_quiet.
    intros j Hj. specialize (Ho j Hj). congruence.
Qed.

(** [poll] keeps the invariant; a return code means nothing runs. *)
Lemma triple_poll p :
  triple (fun st => Inv st /\ process st = Some p) (poll E p)
    (post Inv (fun r st => r <> None -> quiet st)).
Proof.
  intros st [HI Hheld]. unfold poll.
  destruct (status_of (procs st) p) as [|c] eqn:Hs; simpl.
  - destruct (env_poll E (trace st) p) as [c|]; simpl.
    + destruct (Inv_mark_exited st (add_event (EvPoll p) st) p c HI) as [HI' Hq];
        [repeat split|].
      split; [exact HI'|]. intros _. apply Hq, Hheld.
    + split; [|congruence]. eapply stable_Inv; [|exact HI]. repeat split.
  - split; [exact HI|]. intros _ i Hi.
    destruct HI as [Ho _]. specialize (Ho i Hi).
    assert (i = p) by congruence. subst i.
    eapply status_of_exited; eassumption.
Qed.

(** [stop_recording] keeps the invariant; when it returns, no child
    runs and the handle is cleared. *)
Lemma triple_stop_recording :
  triple Inv (stop_recording E)
    (post Inv (fun _ st => quiet st /\ process st = None)).
Proof.
  intros st HI. unfold stop_recording, bind, gets, try_except, terminate, wait, kill, modify; simpl.
  destruct (process st) as [p|] eqn:Hheld; simpl.
  2:{ split; [exact HI|]. split; [|exact Hheld].
      intros i Hi. destruct HI as [Ho _]. specialize (Ho i Hi). congruence. }
  destruct (status_of (procs st) p) as [|c] eqn:Hs; simpl.
  - rewrite Hs. simpl.
    destruct (env_wait E _ p 10) as [c| |]; simpl.
    + destruct (Inv_mark_exited st (add_event (EvWait p 10) (add_event (EvSigTerm p) st)) p c HI)
        as [[Ho' Hn'] Hq]; [repeat split|].
      specialize (Hq Hheld). repeat split.
      * apply quiet_owned. exact Hq.
      * exact Hn'.
      * exact Hq.
    + rewrite Hs. simpl.
      destruct (Inv_mark_exited st
                  (add_event (EvSigKill p) (add_event (EvWait p 10) (add_event (EvSigTerm p) st)))
                  p (-9) HI) as [[Ho' Hn'] Hq]; [repeat split|].
      specialize (Hq Hheld). repeat split.
      * apply quiet_owned. exact Hq.
      * exact Hn'.
      * exact Hq.
    + split; [|exact Logic.I]. eapply stable_Inv; [|exact HI]. repeat split.
  - rewrite Hs. simpl.
    assert (Hq : quiet st).
    { intros i Hi. destruct HI as [Ho _]. specialize (Ho i Hi).
      assert (i = p) by congruence. subst i.
      eapply status_of_exited; eassumption. }
    repeat split.
    + apply quiet_owned. exact Hq.
    + apply HI.
    + exact Hq.
Qed.

(** [start_recording] from a state where no child runs. *)
Lemma triple_start_recording filename :
  triple (fun st => Inv st /\ quiet st) (start_recording E filename)
    (post Inv (fun _ _ => True)).
Proof.
  intros st [[Ho Hn] Hq].
  unfold start_recording, bind, gets, Popen, modify, logging_info; simpl.
  destruct (env_Popen E (trace st) _) as [[]|e]; simpl.
  - assert (Ho' : forall i, (procs st ++ [Running])%list !! i = Some Running -> i = length (procs st)).
    { intros i Hi. destruct (decide (i < length (procs st))) as [Hlt|Hge].
      - rewrite lookup_app_l in Hi by exact Hlt. destruct (Hq i Hi).
      - apply lookup_lt_Some in Hi. rewrite length_app in Hi. simpl in Hi. lia. }
    split; [split|exact Logic.I].
    + intros i Hi. simpl in *. f_equal. symmetry. apply Ho', Hi.
    + intros tbl Hin. simpl in Hin. apply elem_of_cons in Hin as [->|Hin]; [|auto].
      eapply live_count_le1. exact Ho'.
  - split; [split|exact Logic.I]; assumption.
Qed.

(** One turn of the inner loop, spelled out. *)
Lemma monitor_S fuel st :
  monitor E (S fuel) st =
  match process st with
  | None => (Normal tt, st)
  | Some p =>
      (code <- poll E p ;;
       match code with
       | Some _ => ret tt
       | None =>
           live <- is_stream_live E ;;
           if negb live
           then logging_info "Stream ended" ;; stop_recording E
           else sleep E 30 ;; monitor E fuel
       end) st
  end.
Proof. simpl. unfold bind at 1, gets. destruct (process st); reflexivity. Qed.

Lemma triple_monitor fuel :
  triple Inv (monitor E fuel) (post Inv (fun _ => quiet)).
Proof.
  induction fuel as [|fuel IH].
  { intros st HI. split; [exact HI | exact Logic.I]. }
  intros st HI. rewrite monitor_S.
  destruct (process st) as [p|] eqn:Hheld.
  2:{ split; [exact HI|]. intros i Hi. destruct HI as [Ho _]. specialize (Ho i Hi). congruence. }
  enough (H : triple (fun st => Inv st /\ process st = Some p)
                (code <- poll E p ;;
                 match code with
                 | Some _ => ret tt
                 | None =>
                     live <- is_stream_live E ;;
                     if negb live
                     then logging_info "Stream ended" ;; stop_recording E
                     else sleep E 30 ;; monitor E fuel
                 end) (post Inv (fun _ => quiet))).
  { apply H. split; assumption. }
  clear st HI Hheld.
  eapply triple_bind; [apply triple_poll|].
  intros [c|].
  - intros st [HI Hq]. split; [exact HI|]. apply Hq. discriminate.
  - eapply triple_conseq with (P' := Inv) (Q' := post Inv (fun _ => quiet));
      [| intros st [HI _]; exact HI | auto].
    eapply triple_bind; [apply (triple_keeps1 Inv); [auto with keeps | apply stable_Inv]|].
    intros live. destruct live; simpl.
    + eapply triple_conseq with (P' := Inv) (Q' := post Inv (fun _ => quiet));
        [| intros st [HI _]; exact HI | auto].
      eapply triple_bind; [apply (triple_keeps1 Inv); [auto with keeps | apply stable_Inv]|].
      intros u. eapply triple_conseq; [exact IH | intros st [HI _]; exact HI | auto].
    + eapply triple_conseq with (P' := Inv) (Q' := post Inv (fun _ => quiet));
        [| intros st [HI _]; exact HI | auto].
      eapply triple_bind; [apply (triple_keeps1 Inv); [auto with keeps | apply stable_Inv]|].
      intros u. eapply triple_conseq;
        [apply triple_stop_recording | intros st [HI _]; exact HI |].
      intros r st [HI Hr]. split; [exact HI|]. destruct r; try exact Logic.I. apply Hr.
Qed.

End Supervisor.

Section Loop.

Variable E : Env.

#[local] Hint Resolve keeps_logging_info keeps_logging_warning
  keeps_logging_error keeps_sleep keeps_is_stream_live
  keeps_is_internet_available keeps_get_output_filename : keeps.

Lemma keeps_wait_branch msg :
  keeps_procs (logging_info msg ;; sleep E 30 ;; ret Continue).
Proof. auto 10 with keeps. Qed.

Lemma triple_tick_body fuel :
  triple (fun st => Inv st /\ quiet st) (tick_body E fuel)
    (post Inv (fun _ => quiet)).
Proof.
  unfold tick_body.
  eapply triple_bind with (J1 := fun _ => quiet).
  { apply triple_keeps; [auto with keeps | apply stable_Inv | apply stable_quiet]. }
  intros net. destruct net; simpl.
  2:{ apply triple_keeps; [auto 10 with keeps | apply stable_Inv | apply stable_quiet]. }
  eapply triple_bind with (J1 := fun _ => quiet).
  { apply triple_keeps; [auto with keeps | apply stable_Inv | apply stable_quiet]. }
  intros live. destruct live; simpl.
  2:{ apply triple_keeps; [auto 10 with keeps | apply stable_Inv | apply stable_quiet]. }
  eapply triple_bind with (J1 := fun _ => quiet).
  { apply triple_keeps; [auto with keeps | apply stable_Inv | apply stable_quiet]. }
  intros filename.
  eapply triple_bind; [apply triple_start_recording|].
  intros u.
  eapply triple_bind with (J1 := fun _ => quiet).
  { eapply triple_conseq; [apply triple_monitor | intros st [HI _]; exact HI | auto]. }
  intros u'. apply (triple_ret Inv (fun _ => quiet)).
Qed.

Lemma triple_tick_handler e :
  triple Inv (tick_handler E e) (post Inv (fun _ => quiet)).
Proof.
  assert (Hstop : forall (k : M loop_ctl), keeps_procs k ->
            triple Inv (stop_recording E ;; k) (post Inv (fun _ => quiet))).
  { intros k Hk. eapply triple_bind with (J1 := fun _ => quiet).
    - eapply triple_conseq; [apply triple_stop_recording | auto |].
      intros r st [HI Hr]. split; [exact HI|]. destruct r; try exact Logic.I. apply Hr.
    - intros u. apply triple_keeps; [exact Hk | apply stable_Inv | apply stable_quiet]. }
  assert (Hlog : forall (l : M unit) (k : M loop_ctl), keeps_procs l -> keeps_procs k ->
            triple Inv (l ;; stop_recording E ;; k) (post Inv (fun _ => quiet))).
  { intros l k Hl Hk. eapply triple_bind.
    - apply (triple_keeps1 Inv); [exact Hl | apply stable_Inv].
    - intros u. eapply triple_conseq; [apply (Hstop k Hk) | intros st [HI _]; exact HI | auto]. }
  destruct e; simpl; apply Hlog; auto 10 with keeps.
Qed.

Lemma triple_tick fuel :
  triple (fun st => Inv st /\ quiet st) (tick E fuel) (post Inv (fun _ => quiet)).
Proof.
  unfold tick. apply triple_try; [apply triple_tick_body | apply triple_tick_handler].
Qed.

Lemma triple_record_stream fuel :
  triple (fun st => Inv st /\ quiet st) (record_stream E fuel)
    (post Inv (fun _ _ => True)).
Proof.
  induction fuel as [|fuel IH]; simpl.
  { intros st [HI _]. split; [exact HI | exact Logic.I]. }
  eapply triple_bind; [apply triple_tick|].
  intros [|].
  - eapply triple_conseq; [exact IH | auto | auto].
  - intros st [HI _]. split; [exact HI | exact Logic.I].
Qed.

(** The constructor leaves no child behind, whether it returns or
    raises. *)
Lemma init_Inv_quiet ch q dirs0 files0 :
  let st0 := snd (TwitchRecorder_init E ch q (boot dirs0 files0)) in
  Inv st0 /\ quiet st0.
Proof.
  assert (Hb : forall st, procs st = [] -> history st = [[]] -> Inv st /\ quiet st).
  { intros st Hp Hh. assert (Hq : quiet st) by (intros p; rewrite Hp; discriminate).
    split; [split|exact Hq].
    - apply quiet_owned, Hq.
    - intros tbl. rewrite Hh. intros ->%list_elem_of_singleton. unfold live_count. simpl. lia. }
  simpl. unfold TwitchRecorder_init, bind, modify, gets, mkdir_exist_ok; simpl.
  destruct (decide _); [|destruct (decide _); [|destruct (env_mkdir _ _ _)]];
    simpl; apply Hb; reflexivity.
Qed.

End Loop.

Lemma live_count_app tbl1 tbl2 :
  live_count (tbl1 ++ tbl2) = live_count tbl1 + live_count tbl2.
Proof. unfold live_count. rewrite List.filter_app, length_app. reflexivity. Qed.

Lemma live_count_running tbl p :
  tbl !! p = Some Running -> 1 <= live_count tbl.
Proof.
  revert p. induction tbl as [|s tbl IH]; intros p Hp; [discriminate|].
  change (s :: tbl) with ([s] ++ tbl). rewrite live_count_app.
  destruct p as [|p]; simpl in Hp.
  - injection Hp as ->. unfold live_count at 1. simpl. lia.
  - specialize (IH p Hp). lia.
Qed.

(** What [is_stream_live] does when the handshake raises an error. *)
Lemma is_stream_live_handshake_raises (E : Env) (st : State) (e : exn) :
  twitch st = None ->
  env_Twitch E (trace st) (client_id st) (client_secret st) = Raises e ->
  is_Exception e = true ->
  is_stream_live E st
  = (Normal false,
     add_log ERROR ("Error checking stream status: " +:+ str_exn e)
       (add_log ERROR ("Failed to initialize Twitch API: " +:+ str_exn e)
          (add_event (EvTwitch (client_id st) (client_secret st)) st))).
Proof.
  intros Htw Hauth He.
  unfold is_stream_live, initialize_twitch, try_except, bind, gets, Twitch; simpl.
  rewrite Htw. simpl. rewrite Hauth, He. simpl. rewrite He. reflexivity.
Qed.

(** What [is_stream_live] does when the object has a session. *)
Lemma is_stream_live_with_session (E : Env) (st : State) (s : Session) :
  twitch st = Some s ->
  is_stream_live E st
  = let st1 := add_event (EvGetStreams [channel st]) st in
    match env_get_streams E (trace st) s [channel st] with
    | Returns l => (Normal (truthy (first l)), st1)
    | Raises e =>
        if is_Exception e
        then (Normal false,
              add_log ERROR ("Error checking stream status: " +:+ str_exn e) st1)
        else (Raised e, st1)
    end.
Proof.
  intros Htw.
  unfold is_stream_live, try_except, bind, gets, get_streams; simpl.
  repeat (progress (rewrite ?Htw; simpl)).
  destruct (env_get_streams E (trace st) s [channel st]) as [l|e]; simpl;
    [reflexivity | destruct (is_Exception e); reflexivity].
Qed.

(** ** Strings, paths and time stamps *)

Lemma length_append (a b : string) :
  String.length (a +:+ b) = String.length a + String.length b.
Proof. induction a as [|c a IH]; simpl; [reflexivity | rewrite IH; reflexivity]. Qed.

Lemma append_inv_head (a b1 b2 : string) : a +:+ b1 = a +:+ b2 -> b1 = b2.
Proof. induction a as [|c a IH]; simpl; intros H; [exact H | injection H as H; auto]. Qed.

(** Two concatenations with tails of one length agree part by part. *)
Lemma append_inj_tail_length (a1 a2 b1 b2 : string) :
  String.length b1 = String.length b2 ->
  a1 +:+ b1 = a2 +:+ b2 -> a1 = a2 /\ b1 = b2.
Proof.
  revert a2. induction a1 as [|c1 a1 IH]; intros [|c2 a2] Hlen H; simpl in H.
  - split; [reflexivity | exact H].
  - exfalso. apply (f_equal String.length) in H.
    rewrite !length_append in H. simpl in H. lia.
  - exfalso. apply (f_equal String.length) in H.
    rewrite !length_append in H. simpl in H. lia.
  - injection H as -> H. destruct (IH a2 Hlen H) as [-> ->]. split; reflexivity.
Qed.

Lemma slash_free_append (a b : string) :
  slash_free (a +:+ b) = slash_free a && slash_free b.
Proof.
  induction a as [|c a IH]; simpl; [reflexivity|].
  rewrite IH. destruct (negb (Ascii.eqb c "/")); reflexivity.
Qed.

Lemma split_slash_free (s : string) : slash_free s = true -> split_slash s = [s].
Proof.
  induction s as [|c s IH]; simpl; [reflexivity|].
  destruct (Ascii.eqb c "/"); simpl; [discriminate|].
  intros H. rewrite (IH H). reflexivity.
Qed.

Lemma root_of_slash_free (s : string) : slash_free s = true -> root_of s = "".
Proof.
  destruct s as [|c s]; [reflexivity|]. simpl.
  destruct (Ascii.eqb_spec c "/") as [->|Hne]; simpl; [discriminate|].
  intros _. destruct c as [[] [] [] [] [] [] [] []]; try reflexivity.
  destruct Hne. reflexivity.
Qed.

Lemma kept_long (s : string) : 2 <= String.length s -> kept s = true.
Proof. destruct s as [|c [|c' s]]; simpl; intros H; try lia. destruct c as [[] [] [] [] [] [] [] []]; reflexivity. Qed.

(** The components of [c +:+ r], for a tail [r] that has no separator:
    those of [c], with [r] added to the last one. *)
Lemma split_slash_append_free (c r : string) :
  slash_free r = true ->
  exists init x,
    split_slash c = init ++ [x] /\ split_slash (c +:+ r) = init ++ [x +:+ r].
Proof.
  intros Hr. induction c as [|a c (init & x & Hc & Hcr)]; simpl.
  - exists [], "". split; [reflexivity | apply split_slash_free, Hr].
  - destruct (Ascii.eqb a "/").
    + exists ("" :: init), x. rewrite Hc, Hcr. split; reflexivity.
    + rewrite Hc, Hcr. destruct init as [|y init]; simpl.
      * exists [], (String a x). split; reflexivity.
      * exists (String a y :: init), x. split; reflexivity.
Qed.

(** The last component of [p / (c +:+ r)] is the last one of [c] with [r]
    added, for every [c]. *)
Lemma joinpath_last (od : Path) (c r : string) :
  slash_free r = true -> 2 <= String.length r ->
  exists init x,
    split_slash c = init ++ [x]
    /\ last (parts (joinpath od (c +:+ r))) = Some (x +:+ r).
Proof.
  intros Hr Hlen. destruct (split_slash_append_free c r Hr) as (init & x & Hc & Hcr).
  exists init, x. split; [exact Hc|].
  assert (Hk : kept (x +:+ r) = true)
    by (apply kept_long; rewrite length_append; lia).
  unfold joinpath, parse. simpl. rewrite Hcr, List.filter_app. simpl. rewrite Hk.
  destruct (String.eqb (root_of (c +:+ r)) ""); simpl;
    rewrite ?app_assoc; apply last_snoc.
Qed.

Lemma digit_mod (a b : N) : digit a = digit b -> (a mod 10 = b mod 10)%N.
Proof.
  unfold digit. intros H. apply (f_equal N_of_ascii) in H.
  assert (Ha : (a mod 10 < 10)%N) by (apply N.mod_upper_bound; discriminate).
  assert (Hb : (b mod 10 < 10)%N) by (apply N.mod_upper_bound; discriminate).
  rewrite !N_ascii_embedding in H by lia. lia.
Qed.

Lemma digit_not_slash (n : N) : Ascii.eqb (digit n) "/" = false.
Proof.
  apply Ascii.eqb_neq. intros H. unfold digit in H.
  apply (f_equal N_of_ascii) in H.
  assert (Hn : (n mod 10 < 10)%N) by (apply N.mod_upper_bound; discriminate).
  rewrite N_ascii_embedding in H by lia.
  change (N_of_ascii "/") with 47%N in H.
  pose proof (N.le_0_l (n mod 10)). lia.
Qed.

Lemma digit_not_underscore (n : N) : Ascii.eqb (digit n) "_" = false.
Proof.
  apply Ascii.eqb_neq. intros H. unfold digit in H.
  apply (f_equal N_of_ascii) in H.
  assert (Hn : (n mod 10 < 10)%N) by (apply N.mod_upper_bound; discriminate).
  rewrite N_ascii_embedding in H by lia.
  change (N_of_ascii "_") with 95%N in H. lia.
Qed.

Lemma append_assoc3 (a b c : string) : (a +:+ b) +:+ c = a +:+ b +:+ c.
Proof.
  induction a as [|x a IH]; [reflexivity|].
  change (String x ((a +:+ b) +:+ c) = String x (a +:+ b +:+ c)).
  rewrite IH. reflexivity.
Qed.

Lemma underscore_free_append (a b : string) :
  underscore_free (a +:+ b) = underscore_free a && underscore_free b.
Proof.
  induction a as [|c a IH]; simpl; [reflexivity|].
  rewrite IH. destruct (negb (Ascii.eqb c "_")); reflexivity.
Qed.

(** The last underscore of a string splits it in one way only. *)
Lemma underscore_split (a1 a2 y1 y2 : string) :
  underscore_free y1 = true -> underscore_free y2 = true ->
  a1 +:+ "_" +:+ y1 = a2 +:+ "_" +:+ y2 -> a1 = a2 /\ y1 = y2.
Proof.
  intros H1 H2. revert a2.
  induction a1 as [|c1 a1 IH]; intros [|c2 a2] H.
  - injection H as H. split; [reflexivity | exact H].
  - exfalso. injection H as _ H. change ("" +:+ y1) with y1 in H. subst y1.
    rewrite underscore_free_append in H1. simpl in H1.
    rewrite andb_false_r in H1. discriminate.
  - exfalso. injection H as _ H. change ("" +:+ y2) with y2 in H. subst y2.
    rewrite underscore_free_append in H2. simpl in H2.
    rewrite andb_false_r in H2. discriminate.
  - injection H as -> H. destruct (IH a2 H) as [-> ->]. split; reflexivity.
Qed.

(** A name [c_yt], with the year [y] and a tail [t] of fixed length,
    determines its three parts. *)
Lemma stamp_split (c1 c2 y1 y2 t1 t2 : string) :
  underscore_free y1 = true -> underscore_free y2 = true ->
  String.length t1 = String.length t2 ->
  c1 +:+ "_" +:+ y1 +:+ t1 = c2 +:+ "_" +:+ y2 +:+ t2 ->
  c1 = c2 /\ y1 = y2 /\ t1 = t2.
Proof.
  intros H1 H2 Hlen H.
  assert (Hre : forall c y t, c +:+ "_" +:+ y +:+ t = (c +:+ "_" +:+ y) +:+ t)
    by (intros c y t; rewrite !append_assoc3; reflexivity).
  rewrite !Hre in H.
  apply append_inj_tail_length in H as [H Ht]; [|exact Hlen].
  apply underscore_split in H as [Hc Hy]; auto.
Qed.

Lemma fmt_Y_four_digits (n : N) : (1000 <= n)%N -> fmt_Y n = pad4 n.
Proof.
  intros H. unfold fmt_Y.
  destruct (N.ltb_spec n 10); [lia|].
  destruct (N.ltb_spec n 100); [lia|].
  destruct (N.ltb_spec n 1000); [lia|]. reflexivity.
Qed.

Lemma underscore_free_fmt_Y (n : N) : underscore_free (fmt_Y n) = true.
Proof.
  unfold fmt_Y, pad4, pad2.
  repeat case_match; simpl; rewrite !digit_not_underscore; reflexivity.
Qed.

(** From the year 1000 on the time stamp has its fifteen characters. *)
Lemma length_strftime (d : datetime) :
  (1000 <= year d)%N -> String.length (strftime d) = 15.
Proof. intros H. unfold strftime. rewrite (fmt_Y_four_digits _ H). reflexivity. Qed.

Lemma slash_free_strftime (d : datetime) : slash_free (strftime d) = true.
Proof.
  unfold strftime, fmt_Y, pad4, pad2.
  repeat case_match; simpl; rewrite !digit_not_slash; reflexivity.
Qed.

(** Two numbers with the same last digit and the same other digits. *)
Lemma decimal_step (a b : N) :
  (a mod 10 = b mod 10)%N -> (a / 10 = b / 10)%N -> a = b.
Proof.
  intros Hm Hd. rewrite (N.div_mod' a 10), (N.div_mod' b 10), Hm, Hd. reflexivity.
Qed.

Lemma pad2_inj (a b : N) : (a < 100)%N -> (b < 100)%N -> pad2 a = pad2 b -> a = b.
Proof.
  intros Ha Hb H. unfold pad2 in H. injection H as H1 H2.
  apply digit_mod in H1, H2.
  assert (Ha1 : (a / 10 < 10)%N) by (apply N.Div0.div_lt_upper_bound; lia).
  assert (Hb1 : (b / 10 < 10)%N) by (apply N.Div0.div_lt_upper_bound; lia).
  rewrite !N.mod_small in H1 by assumption.
  apply decimal_step; assumption.
Qed.

Lemma pad4_inj (a b : N) : (a < 10000)%N -> (b < 10000)%N -> pad4 a = pad4 b -> a = b.
Proof.
  intros Ha Hb H. unfold pad4 in H. injection H as H1 H2 H3 H4.
  apply digit_mod in H1, H2, H3, H4.
  assert (Ha1 : (a / 1000 < 10)%N) by (apply N.Div0.div_lt_upper_bound; lia).
  assert (Hb1 : (b / 1000 < 10)%N) by (apply N.Div0.div_lt_upper_bound; lia).
  rewrite !N.mod_small in H1 by assumption.
  assert (E3 : forall x, (x / 1000 = x / 10 / 10 / 10)%N)
    by (intros x; rewrite !N.Div0.div_div; reflexivity).
  assert (E2 : forall x, (x / 100 = x / 10 / 10)%N)
    by (intros x; rewrite !N.Div0.div_div; reflexivity).
  rewrite !E3 in H1. rewrite !E2 in H2.
  apply decimal_step; [assumption|].
  apply decimal_step; [assumption|].
  apply decimal_step; assumption.
Qed.

(** The year can be read back from [%Y], padded or not. *)
Lemma fmt_Y_inj (a b : N) : (a < 10000)%N -> (b < 10000)%N -> fmt_Y a = fmt_Y b -> a = b.
Proof.
  intros Ha Hb. unfold fmt_Y.
  destruct (N.ltb_spec a 10) as [A1|A1];
    [|destruct (N.ltb_spec a 100) as [A2|A2];
      [|destruct (N.ltb_spec a 1000) as [A3|A3]]];
    (destruct (N.ltb_spec b 10) as [B1|B1];
      [|destruct (N.ltb_spec b 100) as [B2|B2];
        [|destruct (N.ltb_spec b 1000) as [B3|B3]]]);
    intros H;
    try (apply (f_equal String.length) in H; unfold pad2, pad4 in H; simpl in H;
         discriminate H).
  - injection H as H. apply digit_mod in H.
    rewrite !N.mod_small in H by assumption. exact H.
  - apply pad2_inj; [lia | lia | exact H].
  - unfold pad2 in H. injection H as H1 H2 H3.
    apply digit_mod in H1, H2, H3.
    assert (Ha1 : (a / 100 < 10)%N) by (apply N.Div0.div_lt_upper_bound; lia).
    assert (Hb1 : (b / 100 < 10)%N) by (apply N.Div0.div_lt_upper_bound; lia).
    rewrite !N.mod_small in H1 by assumption.
    assert (E2 : forall x, (x / 100 = x / 10 / 10)%N)
      by (intros x; rewrite !N.Div0.div_div; reflexivity).
    rewrite !E2 in H1.
    apply decimal_step; [assumption|].
    apply decimal_step; assumption.
  - apply pad4_inj; [lia | lia | exact H].
Qed.

(** On dates the type admits, the time stamp determines the second. *)
Lemma strftime_inj (d1 d2 : datetime) :
  valid_datetime d1 -> valid_datetime d2 ->
  strftime d1 = strftime d2 -> to_second d1 = to_second d2.
Proof.
  intros V1 V2 H. unfold valid_datetime in V1, V2. unfold strftime in H.
  apply append_inj_tail_length in H as [Hy H]; [|reflexivity].
  apply fmt_Y_inj in Hy; [|lia|lia].
  assert (Hrest : pad2 (month d1) = pad2 (month d2) /\ pad2 (day d1) = pad2 (day d2) /\
                  pad2 (hour d1) = pad2 (hour d2) /\ pad2 (minute d1) = pad2 (minute d2) /\
                  pad2 (second d1) = pad2 (second d2)).
  { unfold pad2 in *. cbn in H. injection H as -> -> -> -> -> -> -> -> -> ->.
    repeat split; reflexivity. }
  destruct Hrest as (Hm & Hd & Hh & Hmi & Hs).
  apply pad2_inj in Hm; [|lia|lia].
  apply pad2_inj in Hd; [|lia|lia].
  apply pad2_inj in Hh; [|lia|lia].
  apply pad2_inj in Hmi; [|lia|lia].
  apply pad2_inj in Hs; [|lia|lia].
  unfold to_second. congruence.
Qed.

(** A file name without separator is one more component. *)
Lemma joinpath_slash_free (od : Path) (s : string) :
  slash_free s = true -> 2 <= String.length s ->
  joinpath od s = mkPath (root od) (parts od ++ [s]).
Proof.
  intros Hs Hlen. unfold joinpath, parse. simpl.
  rewrite (root_of_slash_free s Hs), (split_slash_free s Hs). simpl.
  rewrite (kept_long s Hlen). reflexivity.
Qed.

(** The string of a path ends with its last component. *)
Lemma join_slash_snoc (l : list string) :
  exists pre, forall n, join_slash (l ++ [n]) = pre +:+ n.
Proof.
  induction l as [|x l [pre IH]].
  - exists "". reflexivity.
  - exists (x +:+ "/" +:+ pre). intros n.
    change ((x :: l) ++ [n]) with (x :: (l ++ [n])).
    destruct (l ++ [n]) as [|y l'] eqn:Hl; [destruct l; discriminate|].
    change (join_slash (x :: y :: l')) with (x +:+ "/" +:+ join_slash (y :: l')).
    rewrite <- Hl, IH, !append_assoc3. reflexivity.
Qed.

Lemma str_snoc (r : string) (l : list string) :
  exists pre, forall n, str (mkPath r (l ++ [n])) = pre +:+ n.
Proof.
  destruct (join_slash_snoc l) as [pre Hpre]. exists (r +:+ pre). intros n.
  unfold str. cbn [root parts].
  destruct (l ++ [n]) as [|y l'] eqn:Hl; [destruct l; discriminate|].
  rewrite <- Hl, Hpre, append_assoc3. destruct r; reflexivity.
Qed.

Lemma name_tail_facts (d : datetime) :
  slash_free (name_tail d) = true /\ 2 <= String.length (name_tail d).
Proof.
  unfold name_tail. split.
  - rewrite !slash_free_append, slash_free_strftime. reflexivity.
  - rewrite !length_append. change (String.length "_") with 1.
    change (String.length ".mp4") with 4. lia.
Qed.

(** A file name determines the channel and the part that follows it. *)
Lemma name_inj (c1 c2 : string) (d1 d2 : datetime) :
  c1 +:+ name_tail d1 = c2 +:+ name_tail d2 ->
  c1 = c2 /\ name_tail d1 = name_tail d2.
Proof.
  unfold name_tail, strftime. intros H.
  rewrite !(append_assoc3 (fmt_Y _)) in H.
  apply stamp_split in H as (Hc & Hy & Ht);
    [|apply underscore_free_fmt_Y|apply underscore_free_fmt_Y|reflexivity].
  split; [exact Hc|]. rewrite !(append_assoc3 (fmt_Y _)), Hy, Ht. reflexivity.
Qed.

Lemma name_tail_inj (d1 d2 : datetime) :
  valid_datetime d1 -> valid_datetime d2 ->
  name_tail d1 = name_tail d2 -> to_second d1 = to_second d2.
Proof.
  intros V1 V2 H. unfold name_tail in H. apply append_inv_head in H.
  apply append_inj_tail_length in H as [H _]; [|reflexivity].
  apply strftime_inj; assumption.
Qed.

(** ** How the loop can end *)

Lemma quiet_signalled st : quiet st -> signalled st.
Proof. intros Hq p Hp. destruct (Hq p Hp). Qed.

Section Endings.

Variable E : Env.

Lemma tick_body_Continue fuel st c st' :
  tick_body E fuel st = (Normal c, st') -> c = Continue.
Proof.
  unfold tick_body, bind.
  repeat (case_match; simpl; try congruence);
    unfold ret in *; intros; simplify_eq; reflexivity.
Qed.

Lemma ends_stop_recording :
  triple Inv (stop_recording E)
    (ends true (fun _ st => quiet st /\ process st = None)).
Proof.
  intros st HI. pose proof (triple_stop_recording E st HI) as [HI' Hpost].
  split; [exact HI'|]. clear HI' Hpost.
  unfold stop_recording, bind, gets, try_except, terminate, wait, kill, modify; simpl.
  destruct (process st) as [p|] eqn:Hheld; simpl.
  2:{ split; [|exact Hheld]. intros i Hi. destruct HI as [Ho _].
      specialize (Ho i Hi). congruence. }
  assert (Hq : forall c st1, same_procs st st1 ->
            quiet (set_procs (<[p := Exited c]> (procs st)) st1)).
  { intros c st1 Hsame. apply (Inv_mark_exited st st1 p c HI Hsame), Hheld. }
  destruct (status_of (procs st) p) as [|c] eqn:Hs; simpl; rewrite ?Hs; simpl.
  - destruct (env_wait E (EvSigTerm p :: trace st) p 10) as [c| |]; simpl;
      rewrite ?Hs; simpl.
    + split; [|reflexivity]. intros i. apply (Hq c (add_event (EvWait p 10) (add_event (EvSigTerm p) st))). repeat split.
    + split; [|reflexivity]. intros i.
      apply (Hq (-9)%Z (add_event (EvSigKill p) (add_event (EvWait p 10) (add_event (EvSigTerm p) st)))).
      repeat split.
    + split; [reflexivity|]. intros _ i Hi. simpl in *.
      destruct HI as [Ho _]. specialize (Ho i Hi).
      assert (i = p) by congruence. subst i.
      apply list_elem_of_further, list_elem_of_here.
  - split; [|reflexivity]. intros i Hi. destruct HI as [Ho _]. specialize (Ho i Hi).
    assert (i = p) by congruence. subst i.
    eapply status_of_exited; eassumption.
Qed.

Lemma log_stop_recording st x :
  x ∈ log st -> x ∈ log (snd (stop_recording E st)).
Proof.
  intros Hx.
  unfold stop_recording, bind, gets, try_except, terminate, wait, kill, modify,
    logging_info; simpl.
  destruct (process st) as [p|]; simpl; [|exact Hx].
  destruct (status_of (procs st) p) as [|c] eqn:Hs; simpl; rewrite ?Hs; simpl.
  - destruct (env_wait E (EvSigTerm p :: trace st) p 10); simpl; rewrite ?Hs; simpl;
      try apply list_elem_of_further; exact Hx.
  - apply list_elem_of_further. exact Hx.
Qed.

Lemma stop_recording_clears st st' :
  stop_recording E st = (Normal tt, st') -> process st' = None.
Proof.
  unfold stop_recording, bind, gets, try_except, terminate, wait, kill, modify,
    logging_info; simpl.
  destruct (process st) as [p|] eqn:Hheld; simpl; [|intros [= <-]; exact Hheld].
  destruct (status_of (procs st) p) as [|c] eqn:Hs; simpl; rewrite ?Hs; simpl.
  - destruct (env_wait E (EvSigTerm p :: trace st) p 10); simpl;
      rewrite ?Hs; simpl; intros [= <-]; reflexivity.
  - intros [= <-]. reflexivity.
Qed.

(** The handler of a turn, entered with the invariant for an exception
    that one of the two clauses matches. *)
Lemma ends_tick_handler e :
  is_KeyboardInterrupt e || is_Exception e = true ->
  triple Inv (tick_handler E e)
    (ends true (fun c st =>
       quiet st /\
       match c with
       | Continue => is_Exception e = true
       | Break => e = KeyboardInterrupt /\ process st = None /\
                  interrupted_line ∈ log st
       end)).
Proof.
  intros Hguard st HI.
  assert (Hstop : forall l msg,
            let st1 := add_log l msg st in
            ends true (fun _ s => quiet s /\ process s = None)
              (fst (stop_recording E st1)) (snd (stop_recording E st1))).
  { intros l msg st1. apply ends_stop_recording.
    eapply stable_Inv; [|exact HI]. repeat split. }
  assert (Hlog : forall l msg, (l, msg) ∈ log (snd (stop_recording E (add_log l msg st)))).
  { intros l msg. apply log_stop_recording. simpl. apply list_elem_of_here. }
  assert (Herr : forall (st2 : State) (r : result unit),
            ends true (fun _ s => quiet s /\ process s = None) r st2 ->
            ends true (fun c s => quiet s /\ c = Continue)
              (fst (match r with
                    | Normal _ => (sleep E 30 ;; ret Continue) st2
                    | Raised e' => (Raised e', st2)
                    | OutOfFuel => (OutOfFuel, st2)
                    end))
              (snd (match r with
                    | Normal _ => (sleep E 30 ;; ret Continue) st2
                    | Raised e' => (Raised e', st2)
                    | OutOfFuel => (OutOfFuel, st2)
                    end))).
  { intros st2 [[]|e'|] Hends; simpl; try exact Hends.
    destruct Hends as [HI2 [Hq Hpr]]. unfold bind, sleep.
    destruct (env_sleep E (trace st2) 30); simpl.
    - split; [eapply stable_Inv; [|exact HI2]; repeat split|].
      split; [reflexivity|]. intros _. apply quiet_signalled. exact Hq.
    - split; [eapply stable_Inv; [|exact HI2]; repeat split|].
      split; [exact Hq | reflexivity]. }
  assert (Hgen : forall msg,
            is_Exception e = true ->
            ends true (fun c s => quiet s /\ c = Continue)
              (fst ((logging_error msg ;; stop_recording E ;; sleep E 30 ;; ret Continue) st))
              (snd ((logging_error msg ;; stop_recording E ;; sleep E 30 ;; ret Continue) st))).
  { intros msg _. specialize (Hstop ERROR msg). cbv zeta in Hstop.
    change ((logging_error msg ;; stop_recording E ;; sleep E 30 ;; ret Continue) st)
      with (let (r, st2) := stop_recording E (add_log ERROR msg st) in
            match r with
            | Normal _ => (sleep E 30 ;; ret Continue) st2
            | Raised e' => (Raised e', st2)
            | OutOfFuel => (OutOfFuel, st2)
            end).
    specialize (Herr (snd (stop_recording E (add_log ERROR msg st)))
                  (fst (stop_recording E (add_log ERROR msg st))) Hstop).
    destruct (stop_recording E (add_log ERROR msg st)) as [r st2]. exact Herr. }
  assert (Hweak : forall r s,
            is_Exception e = true ->
            ends true (fun c s => quiet s /\ c = Continue) r s ->
            ends true (fun c st =>
              quiet st /\
              match c with
              | Continue => is_Exception e = true
              | Break => e = KeyboardInterrupt /\ process st = None /\
                         interrupted_line ∈ log st
              end) r s).
  { intros r s He [HIs Hr]. split; [exact HIs|].
    destruct r as [c| |]; try exact Hr. destruct Hr as [Hq ->]. split; assumption. }
  destruct e as [|m| |m|m]; unfold tick_handler; [| | | |discriminate Hguard].
  - specialize (Hstop INFO "Recording interrupted by user").
    specialize (Hlog INFO "Recording interrupted by user").
    cbv zeta in Hstop.
    change ((logging_info "Recording interrupted by user" ;; stop_recording E ;; ret Break) st)
      with (let (r, st2) := stop_recording E (add_log INFO "Recording interrupted by user" st) in
            match r with
            | Normal _ => (Normal Break, st2)
            | Raised e' => (Raised e', st2)
            | OutOfFuel => (OutOfFuel, st2)
            end).
    destruct (stop_recording E (add_log INFO "Recording interrupted by user" st))
      as [[[]|e|] st2]; simpl in *.
    + destruct Hstop as [HI2 [Hq Hpr]]. split; [exact HI2|]. repeat split; assumption.
    + exact Hstop.
    + exact Hstop.
  - apply Hweak; [reflexivity|]. apply Hgen. reflexivity.
  - apply Hweak; [reflexivity|]. apply Hgen. reflexivity.
  - apply Hweak; [reflexivity|]. apply Hgen. reflexivity.
Qed.

End Endings.

Section LoopEndings.

Variable E : Env.

(** An exception that neither [except] clause matches is no [Exception]
    and no keyboard interrupt. *)
Lemma tick_clauses_miss (e : exn) :
  is_KeyboardInterrupt e || is_Exception e = false ->
  is_Exception e = false /\ e <> KeyboardInterrupt.
Proof. destruct e; simpl; intros H; try discriminate H; split; congruence. Qed.

(** One turn of the outer loop, spelled out. *)
Lemma record_stream_S fuel st :
  record_stream E (S fuel) st =
  match tick E fuel st with
  | (Normal Continue, st1) => record_stream E fuel st1
  | (Normal Break, st1) => (Normal tt, st1)
  | (Raised e, st1) => (Raised e, st1)
  | (OutOfFuel, st1) => (OutOfFuel, st1)
  end.
Proof.
  simpl. unfold bind. destruct (tick E fuel st) as [[[|]|e|] st1]; reflexivity.
Qed.

(** The turn when its [try] block raises an [Exception]. *)
Lemma tick_error fuel st e st1 :
  tick_body E fuel st = (Raised e, st1) ->
  is_Exception e = true ->
  tick E fuel st =
  match stop_recording E (add_log ERROR ("Unexpected error: " +:+ str_exn e) st1) with
  | (Normal _, st3) =>
      if env_sleep E (trace st3) 30
      then (Raised KeyboardInterrupt, add_event (EvSleep 30) st3)
      else (Normal Continue, add_event (EvSleep 30) st3)
  | (Raised e', st3) => (Raised e', st3)
  | (OutOfFuel, st3) => (OutOfFuel, st3)
  end.
Proof.
  intros Hbody He. unfold tick, try_except. rewrite Hbody, He, orb_true_r.
  assert (Hh : tick_handler E e
               = (logging_error ("Unexpected error: " +:+ str_exn e) ;;
                  stop_recording E ;; sleep E 30 ;; ret Continue))
    by (destruct e; [discriminate He | reflexivity.. | discriminate He]).
  rewrite Hh. unfold bind at 1, logging_error, modify. simpl.
  unfold bind at 1.
  destruct (stop_recording E _) as [[[]|e'|] st3]; try reflexivity.
  unfold bind, sleep. destruct (env_sleep E (trace st3) 30); reflexivity.
Qed.

(** The turn when its [try] block raises the keyboard interrupt. *)
Lemma tick_interrupt fuel st st1 :
  tick_body E fuel st = (Raised KeyboardInterrupt, st1) ->
  tick E fuel st =
  match stop_recording E (add_log INFO "Recording interrupted by user" st1) with
  | (Normal _, st3) => (Normal Break, st3)
  | (Raised e', st3) => (Raised e', st3)
  | (OutOfFuel, st3) => (OutOfFuel, st3)
  end.
Proof.
  intros Hbody. unfold tick, try_except. rewrite Hbody. simpl.
  unfold bind at 1, logging_info, modify. simpl.
  unfold bind at 1.
  destruct (stop_recording E _) as [[[]|e'|] st3]; reflexivity.
Qed.

(** The turn when its [try] block raises what neither clause matches. *)
Lemma tick_uncaught fuel st e st1 :
  tick_body E fuel st = (Raised e, st1) ->
  is_Exception e = false -> e <> KeyboardInterrupt ->
  tick E fuel st = (Raised e, st1).
Proof.
  intros Hbody He Hne. unfold tick, try_except. rewrite Hbody, He.
  destruct e; try reflexivity; try discriminate He. destruct Hne. reflexivity.
Qed.

(** A turn of the outer loop, entered with no child running. *)
Lemma ends_tick fuel :
  triple (fun st => Inv st /\ quiet st) (tick E fuel)
    (ends false (fun c st =>
       quiet st /\
       (c = Break -> process st = None /\ interrupted_line ∈ log st))).
Proof.
  intros st Hst. pose proof (triple_tick_body E fuel st Hst) as [HI1 Hq1].
  unfold tick, try_except.
  destruct (tick_body E fuel st) as [[c|e|] st1] eqn:Hbody; simpl in *.
  - apply tick_body_Continue in Hbody. subst c.
    split; [exact HI1|]. split; [exact Hq1 | discriminate].
  - destruct (is_KeyboardInterrupt e || is_Exception e) eqn:Hguard.
    + pose proof (ends_tick_handler E e Hguard st1 HI1) as [HI2 Hr].
      split; [exact HI2|].
      destruct (tick_handler E e st1) as [[c|e'|] st2]; simpl in *.
      * destruct Hr as [Hq Hc]. split; [exact Hq|]. intros ->. apply Hc.
      * exact Hr.
      * discriminate.
    + destruct (tick_clauses_miss e Hguard) as [He Hne].
      split; [exact HI1|]. simpl. split; [exact He|]. intros ->. destruct Hne. reflexivity.
  - split; [exact HI1 | reflexivity].
Qed.

Lemma ends_record_stream fuel :
  triple (fun st => Inv st /\ quiet st) (record_stream E fuel)
    (ends false (fun _ st =>
       quiet st /\ process st = None /\ interrupted_line ∈ log st)).
Proof.
  induction fuel as [|fuel IH]; intros st Hst.
  { split; [apply Hst | reflexivity]. }
  pose proof (ends_tick fuel st Hst) as [HI1 Hr].
  simpl. unfold bind.
  destruct (tick E fuel st) as [[[|]|e|] st1]; simpl in *.
  - apply IH. split; [exact HI1 | apply Hr].
  - split; [exact HI1|]. destruct Hr as [Hq Hb]. split; [exact Hq | apply Hb; reflexivity].
  - split; [exact HI1 | exact Hr].
  - split; [exact HI1 | reflexivity].
Qed.

End LoopEndings.

(** ** Calls that leave the file system alone *)

Lemma same_fs_trans st1 st2 st3 :
  same_fs st1 st2 -> same_fs st2 st3 -> same_fs st1 st3.
Proof. unfold same_fs. intros (-> & -> & ->) (-> & -> & ->). repeat split. Qed.

Lemma fs_ret {A} (a : A) : keeps_fs (ret a).
Proof. intros st. repeat split. Qed.

Lemma fs_raise {A} (e : exn) : keeps_fs (@raise A e).
Proof. intros st. repeat split. Qed.

Lemma fs_bind {A B} (m : M A) (k : A -> M B) :
  keeps_fs m -> (forall a, keeps_fs (k a)) -> keeps_fs (bind m k).
Proof.
  intros Hm Hk st. specialize (Hm st). unfold bind.
  destruct (m st) as [[a|e|] st1]; simpl in *; try exact Hm.
  eapply same_fs_trans; [exact Hm | apply Hk].
Qed.

Lemma fs_try {A} (m : M A) (guard : exn -> bool) (h : exn -> M A) :
  keeps_fs m -> (forall e, keeps_fs (h e)) -> keeps_fs (try_except m guard h).
Proof.
  intros Hm Hh st. specialize (Hm st). unfold try_except.
  destruct (m st) as [[a|e|] st1]; simpl in *; try exact Hm.
  destruct (guard e); [|exact Hm].
  eapply same_fs_trans; [exact Hm | apply Hh].
Qed.

Create HintDb fs.
#[local] Hint Resolve fs_ret fs_raise fs_bind fs_try : fs.

Section KeepsFs.

Variable E : Env.

Lemma fs_gets {A} (f : State -> A) : keeps_fs (gets f).
Proof. keeps_prim. Qed.

Lemma fs_logging_info msg : keeps_fs (logging_info msg).
Proof. keeps_prim. Qed.

Lemma fs_logging_warning msg : keeps_fs (logging_warning msg).
Proof. keeps_prim. Qed.

Lemma fs_logging_error msg : keeps_fs (logging_error msg).
Proof. keeps_prim. Qed.

Lemma fs_requests_get url t : keeps_fs (requests_get E url t).
Proof. unfold requests_get. keeps_prim. Qed.

Lemma fs_Twitch id secret : keeps_fs (Twitch E id secret).
Proof. unfold Twitch. keeps_prim. Qed.

Lemma fs_get_streams tw l : keeps_fs (get_streams E tw l).
Proof. unfold get_streams. keeps_prim. Qed.

Lemma fs_now : keeps_fs (now E).
Proof. keeps_prim. Qed.

Lemma fs_sleep n : keeps_fs (sleep E n).
Proof. unfold sleep. keeps_prim. Qed.

Lemma fs_Popen argv : keeps_fs (Popen E argv).
Proof. unfold Popen. keeps_prim. Qed.

Lemma fs_poll p : keeps_fs (poll E p).
Proof. unfold poll. keeps_prim. Qed.

Lemma fs_terminate p : keeps_fs (terminate p).
Proof. unfold terminate. keeps_prim. Qed.

Lemma fs_wait p t : keeps_fs (wait E p t).
Proof. unfold wait. keeps_prim. Qed.

Lemma fs_kill p : keeps_fs (kill p).
Proof. unfold kill. keeps_prim. Qed.

Lemma fs_set_twitch v : keeps_fs (modify (set_twitch v)).
Proof. keeps_prim. Qed.

Lemma fs_set_process v : keeps_fs (modify (set_process v)).
Proof. keeps_prim. Qed.

#[local] Hint Resolve fs_gets fs_logging_info fs_logging_warning
  fs_logging_error fs_requests_get fs_Twitch fs_get_streams fs_now fs_sleep
  fs_Popen fs_poll fs_terminate fs_wait fs_kill fs_set_twitch fs_set_process : fs.

Lemma fs_is_stream_live : keeps_fs (is_stream_live E).
Proof.
  unfold is_stream_live, initialize_twitch. apply fs_try; [|auto with fs].
  apply fs_bind; [auto with fs|]. intros tw.
  apply fs_bind; [destruct (truthy tw); auto 10 with fs|].
  intros _. apply fs_bind; [auto with fs|]. intros tw'.
  apply fs_bind; [auto with fs|]. intros c.
  destruct tw'; auto with fs.
Qed.

Lemma fs_for_endpoints l : keeps_fs (for_endpoints E l).
Proof.
  induction l as [|endpoint rest IH]; simpl; [auto with fs|].
  apply fs_bind; [auto 10 with fs|].
  intros [b|]; auto with fs.
Qed.

Lemma fs_get_output_filename : keeps_fs (get_output_filename E).
Proof. unfold get_output_filename. auto 10 with fs. Qed.

Lemma fs_start_recording f : keeps_fs (start_recording E f).
Proof. unfold start_recording. auto 10 with fs. Qed.

Lemma fs_stop_recording : keeps_fs (stop_recording E).
Proof.
  unfold stop_recording. apply fs_bind; [auto with fs|].
  intros [p|]; auto 10 with fs.
Qed.

Lemma fs_monitor fuel : keeps_fs (monitor E fuel).
Proof.
  induction fuel as [|fuel IH]; simpl; [intros st; repeat split|].
  apply fs_bind; [auto with fs|]. intros [p|]; [|auto with fs].
  apply fs_bind; [auto with fs|]. intros [c|]; [auto with fs|].
  apply fs_bind; [apply fs_is_stream_live|]. intros live.
  destruct live; simpl.
  - apply fs_bind; [auto with fs|]. intros _. exact IH.
  - apply fs_bind; [auto with fs|]. intros _. apply fs_stop_recording.
Qed.

Lemma fs_tick fuel : keeps_fs (tick E fuel).
Proof.
  unfold tick. apply fs_try.
  - unfold tick_body, is_internet_available.
    apply fs_bind; [apply fs_for_endpoints|]. intros net.
    destruct net; simpl; [|auto 10 with fs].
    apply fs_bind; [apply fs_is_stream_live|]. intros live.
    destruct live; simpl; [|auto 10 with fs].
    apply fs_bind; [apply fs_get_output_filename|]. intros f.
    apply fs_bind; [apply fs_start_recording|]. intros _.
    apply fs_bind; [apply fs_monitor|]. intros _. auto with fs.
  - intros e. pose proof fs_stop_recording.
    destruct e; simpl; auto 10 with fs.
Qed.

Lemma fs_record_stream fuel : keeps_fs (record_stream E fuel).
Proof.
  induction fuel as [|fuel IH]; simpl; [intros st; repeat split|].
  apply fs_bind; [apply fs_tick|]. intros [|]; [exact IH | auto with fs].
Qed.

End KeepsFs.

(** What [is_stream_live] does when the object has no session yet. *)
Lemma is_stream_live_first_use (E : Env) (st : State) :
  twitch st = None ->
  is_stream_live E st
  = let hs := add_event (EvTwitch (client_id st) (client_secret st)) st in
    match env_Twitch E (trace st) (client_id st) (client_secret st) with
    | Raises e =>
        if is_Exception e
        then (Normal false,
              add_log ERROR ("Error checking stream status: " +:+ str_exn e)
                (add_log ERROR ("Failed to initialize Twitch API: " +:+ str_exn e) hs))
        else (Raised e, hs)
    | Returns s =>
        let st1 := add_log INFO "Successfully authenticated with Twitch API"
                     (set_twitch (Some s) hs) in
        let st2 := add_event (EvGetStreams [channel st]) st1 in
        match env_get_streams E (trace st1) s [channel st] with
        | Returns l => (Normal (truthy (first l)), st2)
        | Raises e =>
            if is_Exception e
            then (Normal false,
                  add_log ERROR ("Error checking stream status: " +:+ str_exn e) st2)
            else (Raised e, st2)
        end
    end.
Proof.
  intros Htw.
  unfold is_stream_live, initialize_twitch, try_except, bind, gets, Twitch,
    get_streams; simpl.
  rewrite Htw. simpl.
  destruct (env_Twitch E (trace st) (client_id st) (client_secret st)) as [s|e]; simpl.
  - destruct (env_get_streams E _ s [channel st]) as [l|e]; simpl;
      [reflexivity | destruct (is_Exception e); reflexivity].
  - destruct (is_Exception e) eqn:He; simpl; rewrite ?He; reflexivity.
Qed.

(** ** Relations that every call of the loop keeps *)

Section Frame.

Variable R : State -> State -> Prop.
Hypothesis R_refl : forall st, R st st.
Hypothesis R_trans : forall st1 st2 st3, R st1 st2 -> R st2 st3 -> R st1 st3.

Lemma rel_ret {A} (a : A) : keeps_rel R (ret a).
Proof. intros st. apply R_refl. Qed.

Lemma rel_gets {A} (f : State -> A) : keeps_rel R (gets f).
Proof. intros st. apply R_refl. Qed.

Lemma rel_bind {A B} (m : M A) (k : A -> M B) :
  keeps_rel R m -> (forall a, keeps_rel R (k a)) -> keeps_rel R (bind m k).
Proof.
  intros Hm Hk st. specialize (Hm st). unfold bind.
  destruct (m st) as [[a|e|] st1]; simpl in *; try exact Hm.
  eapply R_trans; [exact Hm | apply Hk].
Qed.

Lemma rel_try {A} (m : M A) (guard : exn -> bool) (h : exn -> M A) :
  keeps_rel R m -> (forall e, keeps_rel R (h e)) -> keeps_rel R (try_except m guard h).
Proof.
  intros Hm Hh st. specialize (Hm st). unfold try_except.
  destruct (m st) as [[a|e|] st1]; simpl in *; try exact Hm.
  destruct (guard e); [|exact Hm].
  eapply R_trans; [exact Hm | apply Hh].
Qed.

Variable E : Env.

(** What the loop is made of. *)
Hypothesis R_log : forall l msg, keeps_rel R (modify (add_log l msg)).
Hypothesis R_net : keeps_rel R (is_internet_available E).
Hypothesis R_live : keeps_rel R (is_stream_live E).
Hypothesis R_file : keeps_rel R (get_output_filename E).
Hypothesis R_start : forall f, keeps_rel R (start_recording E f).
Hypothesis R_stop : keeps_rel R (stop_recording E).
Hypothesis R_poll : forall p, keeps_rel R (poll E p).
Hypothesis R_sleep : keeps_rel R (sleep E 30).

Lemma rel_monitor fuel : keeps_rel R (monitor E fuel).
Proof.
  induction fuel as [|fuel IH]; simpl; [intros st; apply R_refl|].
  apply rel_bind; [apply rel_gets|]. intros [p|]; [|apply rel_ret].
  apply rel_bind; [apply R_poll|]. intros [c|]; [apply rel_ret|].
  apply rel_bind; [apply R_live|]. intros live.
  destruct live; simpl.
  - apply rel_bind; [apply R_sleep|]. intros _. exact IH.
  - apply rel_bind; [apply R_log|]. intros _. apply R_stop.
Qed.

Lemma rel_tick_handler e : keeps_rel R (tick_handler E e).
Proof.
  assert (H1 : keeps_rel R (stop_recording E ;; ret Break))
    by (apply rel_bind; [apply R_stop | intros _; apply rel_ret]).
  assert (H2 : keeps_rel R (stop_recording E ;; sleep E 30 ;; ret Continue)).
  { apply rel_bind; [apply R_stop|]. intros _.
    apply rel_bind; [apply R_sleep | intros _; apply rel_ret]. }
  destruct e; simpl; (apply rel_bind; [apply R_log | intros _; assumption]).
Qed.

Lemma rel_tick_body fuel : keeps_rel R (tick_body E fuel).
Proof.
  assert (Hwait : forall l msg, keeps_rel R (modify (add_log l msg) ;; sleep E 30 ;; ret Continue)).
  { intros l msg. apply rel_bind; [apply R_log|]. intros _.
    apply rel_bind; [apply R_sleep | intros _; apply rel_ret]. }
  unfold tick_body.
  apply rel_bind; [apply R_net|]. intros net.
  destruct net; simpl; [|apply Hwait].
  apply rel_bind; [apply R_live|]. intros live.
  destruct live; simpl.
  2:{ apply rel_bind; [apply rel_gets|]. intros ch. apply Hwait. }
  apply rel_bind; [apply R_file|]. intros f.
  apply rel_bind; [apply R_start|]. intros _.
  apply rel_bind; [apply rel_monitor|]. intros _. apply rel_ret.
Qed.

Lemma rel_tick fuel : keeps_rel R (tick E fuel).
Proof. unfold tick. apply rel_try; [apply rel_tick_body | apply rel_tick_handler]. Qed.

Lemma rel_record_stream fuel : keeps_rel R (record_stream E fuel).
Proof.
  induction fuel as [|fuel IH]; simpl; [intros st; apply R_refl|].
  apply rel_bind; [apply rel_tick|]. intros [|]; [exact IH | apply rel_ret].
Qed.

End Frame.

Section FrameCalls.

Variable R : State -> State -> Prop.
Hypothesis R_refl : forall st, R st st.
Hypothesis R_trans : forall st1 st2 st3, R st1 st2 -> R st2 st3 -> R st1 st3.

Variable E : Env.

(** The library calls the methods are made of. *)
Hypothesis R_log : forall l msg, keeps_rel R (modify (add_log l msg)).
Hypothesis R_get : forall url, keeps_rel R (requests_get E url 5).
Hypothesis R_now : keeps_rel R (now E).
Hypothesis R_Popen : forall argv, keeps_rel R (Popen E argv).
Hypothesis R_set_process : forall v, keeps_rel R (modify (set_process v)).
Hypothesis R_terminate : forall p, keeps_rel R (terminate p).
Hypothesis R_wait : forall p, keeps_rel R (wait E p 10).
Hypothesis R_kill : forall p, keeps_rel R (kill p).
Hypothesis R_Twitch : forall id secret, keeps_rel R (Twitch E id secret).
Hypothesis R_get_streams : forall tw l, keeps_rel R (get_streams E tw l).
Hypothesis R_set_twitch : forall v, keeps_rel R (modify (set_twitch v)).

Lemma rel_raise {A} (e : exn) : keeps_rel R (@raise A e).
Proof. intros st. apply R_refl. Qed.

Lemma rel_for_endpoints l : keeps_rel R (for_endpoints E l).
Proof.
  induction l as [|endpoint rest IH]; simpl; [apply rel_ret; assumption|].
  apply rel_bind; [assumption| |].
  - apply rel_try; [assumption| |intros _; apply rel_ret; assumption].
    apply rel_bind; [assumption|apply R_get|intros _; apply rel_ret; assumption].
  - intros [b|]; [apply rel_ret; assumption | exact IH].
Qed.

Lemma rel_is_internet_available : keeps_rel R (is_internet_available E).
Proof. apply rel_for_endpoints. Qed.

Lemma rel_get_output_filename : keeps_rel R (get_output_filename E).
Proof.
  unfold get_output_filename.
  apply rel_bind; [assumption|apply R_now|]. intros d.
  apply rel_bind; [assumption|apply rel_gets; assumption|]. intros od.
  apply rel_bind; [assumption|apply rel_gets; assumption|]. intros ch.
  apply rel_ret; assumption.
Qed.

Lemma rel_start_recording f : keeps_rel R (start_recording E f).
Proof.
  unfold start_recording.
  apply rel_bind; [assumption|apply rel_gets; assumption|]. intros ch.
  apply rel_bind; [assumption|apply rel_gets; assumption|]. intros q.
  apply rel_bind; [assumption|apply R_Popen|]. intros p.
  apply rel_bind; [assumption|apply R_set_process|]. intros _. apply R_log.
Qed.

Lemma rel_stop_recording : keeps_rel R (stop_recording E).
Proof.
  unfold stop_recording.
  apply rel_bind; [assumption|apply rel_gets; assumption|].
  intros [p|]; [|apply rel_ret; assumption].
  apply rel_bind; [assumption|apply R_terminate|]. intros _.
  apply rel_bind; [assumption| |].
  - apply rel_try; [assumption| |intros _; apply R_kill].
    apply rel_bind; [assumption|apply R_wait|intros _; apply rel_ret; assumption].
  - intros _. apply rel_bind; [assumption|apply R_set_process|]. intros _. apply R_log.
Qed.

Lemma rel_is_stream_live : keeps_rel R (is_stream_live E).
Proof.
  unfold is_stream_live, initialize_twitch.
  apply rel_try; [assumption| |].
  2:{ intros e. apply rel_bind; [assumption|apply R_log|].
      intros _. apply rel_ret; assumption. }
  apply rel_bind; [assumption|apply rel_gets; assumption|]. intros tw.
  apply rel_bind; [assumption| |].
  { destruct (truthy tw); [apply rel_ret; assumption|].
    apply rel_try; [assumption| |].
    - apply rel_bind; [assumption|apply rel_gets; assumption|]. intros id.
      apply rel_bind; [assumption|apply rel_gets; assumption|]. intros secret.
      apply rel_bind; [assumption|apply R_Twitch|]. intros tw'.
      apply rel_bind; [assumption|apply R_set_twitch|]. intros _. apply R_log.
    - intros e. apply rel_bind; [assumption|apply R_log|]. intros _. apply rel_raise. }
  intros _. apply rel_bind; [assumption|apply rel_gets; assumption|]. intros tw'.
  apply rel_bind; [assumption|apply rel_gets; assumption|]. intros ch.
  destruct tw' as [s|]; [|apply rel_raise].
  apply rel_bind; [assumption|apply R_get_streams|]. intros l.
  apply rel_ret; assumption.
Qed.

End FrameCalls.

(** Splits a library call on the answer of the environment. *)
Ltac by_answer :=
  unfold requests_get, Twitch, get_streams, now, Popen, poll, terminate, wait,
    kill, sleep, modify;
  simpl; repeat case_match; simpl.

Section SessionKept.

Variable E : Env.

Lemma session_kept_refl st : session_kept st st.
Proof. intros s Hs. split; [exact Hs | reflexivity]. Qed.

Lemma session_kept_trans st1 st2 st3 :
  session_kept st1 st2 -> session_kept st2 st3 -> session_kept st1 st3.
Proof.
  intros H12 H23 s Hs. destruct (H12 s Hs) as [Hs2 Hh2].
  destruct (H23 s Hs2) as [Hs3 Hh3]. split; [exact Hs3 | congruence].
Qed.

Lemma session_kept_log l msg : keeps_rel session_kept (modify (add_log l msg)).
Proof. intros st s Hs. split; [exact Hs | reflexivity]. Qed.

Lemma session_kept_get url : keeps_rel session_kept (requests_get E url 5).
Proof. intros st s Hs. by_answer; auto. Qed.

Lemma session_kept_now : keeps_rel session_kept (now E).
Proof. intros st s Hs. by_answer; auto. Qed.

Lemma session_kept_Popen argv : keeps_rel session_kept (Popen E argv).
Proof. intros st s Hs. by_answer; auto. Qed.

Lemma session_kept_set_process v : keeps_rel session_kept (modify (set_process v)).
Proof. intros st s Hs. by_answer; auto. Qed.

Lemma session_kept_terminate p : keeps_rel session_kept (terminate p).
Proof. intros st s Hs. by_answer; auto. Qed.

Lemma session_kept_wait p : keeps_rel session_kept (wait E p 10).
Proof. intros st s Hs. by_answer; auto. Qed.

Lemma session_kept_kill p : keeps_rel session_kept (kill p).
Proof. intros st s Hs. by_answer; auto. Qed.

Lemma session_kept_poll p : keeps_rel session_kept (poll E p).
Proof. intros st s Hs. by_answer; auto. Qed.

Lemma session_kept_sleep : keeps_rel session_kept (sleep E 30).
Proof. intros st s Hs. by_answer; auto. Qed.

Lemma session_kept_live : keeps_rel session_kept (is_stream_live E).
Proof.
  intros st s Hs. rewrite (is_stream_live_with_session E st s Hs). cbv zeta.
  repeat case_match; simpl; auto.
Qed.

Lemma session_kept_net : keeps_rel session_kept (is_internet_available E).
Proof.
  exact (rel_is_internet_available _ session_kept_refl session_kept_trans E
           session_kept_get).
Qed.

Lemma session_kept_file : keeps_rel session_kept (get_output_filename E).
Proof.
  exact (rel_get_output_filename _ session_kept_refl session_kept_trans E
           session_kept_now).
Qed.

Lemma session_kept_start f : keeps_rel session_kept (start_recording E f).
Proof.
  exact (rel_start_recording _ session_kept_refl session_kept_trans E
           session_kept_log session_kept_Popen session_kept_set_process f).
Qed.

Lemma session_kept_stop : keeps_rel session_kept (stop_recording E).
Proof.
  exact (rel_stop_recording _ session_kept_refl session_kept_trans E
           session_kept_log session_kept_set_process session_kept_terminate
           session_kept_wait session_kept_kill).
Qed.

Lemma session_kept_record_stream fuel :
  keeps_rel session_kept (record_stream E fuel).
Proof.
  exact (rel_record_stream _ session_kept_refl session_kept_trans E
           session_kept_log session_kept_net session_kept_live
           session_kept_file session_kept_start session_kept_stop
           session_kept_poll session_kept_sleep fuel).
Qed.

End SessionKept.

Section NoLaunch.

Variable E : Env.

Lemma no_launch_refl st : no_launch st st.
Proof. reflexivity. Qed.

Lemma no_launch_trans st1 st2 st3 :
  no_launch st1 st2 -> no_launch st2 st3 -> no_launch st1 st3.
Proof. unfold no_launch. congruence. Qed.

Lemma no_launch_log l msg : keeps_rel no_launch (modify (add_log l msg)).
Proof. intros st. reflexivity. Qed.

Lemma no_launch_get url : keeps_rel no_launch (requests_get E url 5).
Proof. intros st. unfold no_launch. by_answer; auto. Qed.

Lemma no_launch_now : keeps_rel no_launch (now E).
Proof. intros st. reflexivity. Qed.

Lemma no_launch_set_process v : keeps_rel no_launch (modify (set_process v)).
Proof. intros st. reflexivity. Qed.

Lemma no_launch_set_twitch v : keeps_rel no_launch (modify (set_twitch v)).
Proof. intros st. reflexivity. Qed.

Lemma no_launch_terminate p : keeps_rel no_launch (terminate p).
Proof. intros st. unfold no_launch. by_answer; auto. Qed.

Lemma no_launch_wait p : keeps_rel no_launch (wait E p 10).
Proof. intros st. unfold no_launch. by_answer; auto. Qed.

Lemma no_launch_kill p : keeps_rel no_launch (kill p).
Proof. intros st. unfold no_launch. by_answer; auto. Qed.

Lemma no_launch_Twitch id secret : keeps_rel no_launch (Twitch E id secret).
Proof. intros st. unfold no_launch. by_answer; auto. Qed.

Lemma no_launch_get_streams tw l : keeps_rel no_launch (get_streams E tw l).
Proof. intros st. unfold no_launch. by_answer; auto. Qed.

Lemma no_launch_poll p : keeps_rel no_launch (poll E p).
Proof. intros st. unfold no_launch. by_answer; auto. Qed.

Lemma no_launch_sleep : keeps_rel no_launch (sleep E 30).
Proof. intros st. unfold no_launch. by_answer; auto. Qed.

Lemma no_launch_net : keeps_rel no_launch (is_internet_available E).
Proof.
  exact (rel_is_internet_available _ no_launch_refl no_launch_trans E no_launch_get).
Qed.

Lemma no_launch_live : keeps_rel no_launch (is_stream_live E).
Proof.
  exact (rel_is_stream_live _ no_launch_refl no_launch_trans E no_launch_log
           no_launch_Twitch no_launch_get_streams no_launch_set_twitch).
Qed.

Lemma no_launch_file : keeps_rel no_launch (get_output_filename E).
Proof.
  exact (rel_get_output_filename _ no_launch_refl no_launch_trans E no_launch_now).
Qed.

Lemma no_launch_stop : keeps_rel no_launch (stop_recording E).
Proof.
  exact (rel_stop_recording _ no_launch_refl no_launch_trans E no_launch_log
           no_launch_set_process no_launch_terminate no_launch_wait no_launch_kill).
Qed.

Lemma no_launch_monitor fuel : keeps_rel no_launch (monitor E fuel).
Proof.
  exact (rel_monitor _ no_launch_refl no_launch_trans E no_launch_log
           no_launch_live no_launch_stop no_launch_poll no_launch_sleep fuel).
Qed.

Lemma no_launch_tick_handler e : keeps_rel no_launch (tick_handler E e).
Proof.
  exact (rel_tick_handler _ no_launch_refl no_launch_trans E no_launch_log
           no_launch_stop no_launch_sleep e).
Qed.

(** [start_recording] is the one call that launches, and it launches
    once. *)
Lemma launches_start_recording f st :
  launches (trace (snd (start_recording E f st))) = S (launches (trace st)).
Proof.
  unfold start_recording, bind, gets, Popen, modify, logging_info; simpl.
  destruct (env_Popen E (trace st) _); reflexivity.
Qed.

End NoLaunch.

Lemma grows_trans (P : event -> Prop) (a b c : list event) :
  grows P a b -> grows P b c -> grows P a c.
Proof. intros Hab Hbc. induction Hbc; [exact Hab | constructor; assumption]. Qed.

(** The added events, as a list. *)
Lemma grows_app (P : event -> Prop) (old tr : list event) :
  grows P old tr <-> exists new, tr = new ++ old /\ Forall P new.
Proof.
  split.
  - induction 1 as [|ev tr Hev _ (new & -> & Hnew)].
    + exists []. split; [reflexivity | constructor].
    + exists (ev :: new). split; [reflexivity | constructor; assumption].
  - intros (new & -> & Hnew). induction Hnew; simpl; constructor; assumption.
Qed.

(** Closes a goal [steady st st'] once [st'] is spelled out. *)
Ltac steady_tac :=
  unfold steady; simpl; repeat split;
  repeat (first [ apply grows_refl
                | apply grows_cons;
                  [simpl; first [ reflexivity | exact Logic.I
                                | split; [unfold endpoints; repeat constructor | reflexivity]
                                | split; reflexivity
                                | eexists; reflexivity ] |] ]).

Section Steady.

Variable E : Env.

Lemma steady_refl st : steady st st.
Proof. steady_tac. Qed.

Lemma steady_trans st1 st2 st3 : steady st1 st2 -> steady st2 st3 -> steady st1 st3.
Proof.
  intros (Hc & Hq & Hi & Hs & Hg) (Hc' & Hq' & Hi' & Hs' & Hg').
  rewrite Hc, Hq, Hi, Hs in Hg'.
  unfold steady. repeat split; try congruence.
  eapply grows_trans; eassumption.
Qed.

Lemma steady_log l msg : keeps_rel steady (modify (add_log l msg)).
Proof. intros st. steady_tac. Qed.

Lemma steady_now : keeps_rel steady (now E).
Proof. intros st. steady_tac. Qed.

Lemma steady_set_process v : keeps_rel steady (modify (set_process v)).
Proof. intros st. steady_tac. Qed.

Lemma steady_terminate p : keeps_rel steady (terminate p).
Proof. intros st. by_answer; steady_tac. Qed.

Lemma steady_wait p : keeps_rel steady (wait E p 10).
Proof. intros st. by_answer; steady_tac. Qed.

Lemma steady_kill p : keeps_rel steady (kill p).
Proof. intros st. by_answer; steady_tac. Qed.

Lemma steady_poll p : keeps_rel steady (poll E p).
Proof. intros st. by_answer; steady_tac. Qed.

Lemma steady_sleep : keeps_rel steady (sleep E 30).
Proof. intros st. by_answer; steady_tac. Qed.

Lemma steady_net : keeps_rel steady (is_internet_available E).
Proof.
  intros st. unfold is_internet_available, endpoints, for_endpoints.
  unfold try_except, bind, requests_get, ret; simpl.
  destruct (env_get E (trace st) "https://1.1.1.1" 5) as [[]|[|m1| |m1|m1]]; simpl;
    try solve [steady_tac].
  destruct (env_get E (EvGet "https://1.1.1.1" 5 :: trace st) "https://8.8.8.8" 5)
    as [[]|[|m2| |m2|m2]]; simpl; try solve [steady_tac].
  destruct (env_get E (EvGet "https://8.8.8.8" 5 :: EvGet "https://1.1.1.1" 5 :: trace st)
              "https://www.google.com" 5) as [[]|[|m3| |m3|m3]]; simpl; steady_tac.
Qed.

Lemma steady_live : keeps_rel steady (is_stream_live E).
Proof.
  intros st. destruct (twitch st) as [s|] eqn:Htw.
  - rewrite (is_stream_live_with_session E st s Htw). cbv zeta.
    destruct (env_get_streams E (trace st) s [channel st]) as [l|e]; simpl;
      [|destruct (is_Exception e)]; steady_tac.
  - rewrite (is_stream_live_first_use E st Htw). cbv zeta.
    destruct (env_Twitch E (trace st) (client_id st) (client_secret st)) as [s|e]; simpl.
    + destruct (env_get_streams E _ s [channel st]) as [l|e]; simpl;
        [|destruct (is_Exception e)]; steady_tac.
    + destruct (is_Exception e); steady_tac.
Qed.

Lemma steady_file : keeps_rel steady (get_output_filename E).
Proof. exact (rel_get_output_filename _ steady_refl steady_trans E steady_now). Qed.

Lemma steady_start f : keeps_rel steady (start_recording E f).
Proof.
  intros st. unfold start_recording, bind, gets, Popen, modify, logging_info; simpl.
  destruct (env_Popen E (trace st) _); simpl; steady_tac.
Qed.

Lemma steady_stop : keeps_rel steady (stop_recording E).
Proof.
  exact (rel_stop_recording _ steady_refl steady_trans E steady_log
           steady_set_process steady_terminate steady_wait steady_kill).
Qed.

Lemma steady_record_stream fuel : keeps_rel steady (record_stream E fuel).
Proof.
  exact (rel_record_stream _ steady_refl steady_trans E steady_log steady_net
           steady_live steady_file steady_start steady_stop steady_poll
           steady_sleep fuel).
Qed.

End Steady.

(** ** Launches in a turn *)

Section LaunchBound.

Variable E : Env.

Lemma no_launch_waiting l msg :
  keeps_rel no_launch (modify (add_log l msg) ;; sleep E 30 ;; ret Continue).
Proof.
  apply rel_bind; [exact no_launch_trans | apply no_launch_log |].
  intros _. apply rel_bind; [exact no_launch_trans | apply no_launch_sleep |].
  intros _. apply rel_ret. exact no_launch_refl.
Qed.

Lemma no_launch_watching fuel :
  keeps_rel no_launch (monitor E fuel ;; ret Continue).
Proof.
  apply rel_bind; [exact no_launch_trans | apply no_launch_monitor |].
  intros _. apply rel_ret. exact no_launch_refl.
Qed.

Lemma launches_tick_body fuel st :
  launches (trace (snd (tick_body E fuel st))) = launches (trace st)
  \/ (launches (trace (snd (tick_body E fuel st))) = S (launches (trace st))
      /\ fst (is_internet_available E st) = Normal true
      /\ fst (is_stream_live E (snd (is_internet_available E st))) = Normal true).
Proof.
  set (st' := snd (tick_body E fuel st)).
  assert (Hst' : st' = snd (tick_body E fuel st)) by reflexivity.
  clearbody st'. unfold tick_body in Hst'.
  pose proof (no_launch_net E st) as Hnet. unfold no_launch in Hnet.
  unfold bind at 1 in Hst'.
  destruct (is_internet_available E st) as [[[|]|e|] s1]; cbn [fst snd negb] in *;
    try (left; subst st'; lia).
  2:{ pose proof (no_launch_waiting WARNING "No internet connection" s1) as Hw.
      unfold no_launch in Hw. unfold logging_warning in Hst'. left; subst st'; lia. }
  pose proof (no_launch_live E s1) as Hlive. unfold no_launch in Hlive.
  unfold bind at 1 in Hst'.
  destruct (is_stream_live E s1) as [[[|]|e|] s2]; cbn [fst snd negb] in *;
    try (left; subst st'; lia).
  2:{ pose proof (no_launch_waiting INFO ("Channel " +:+ channel s2 +:+ " is not live") s2)
        as Hw.
      unfold no_launch in Hw. unfold bind at 1, gets, logging_info in Hst'.
      cbn [fst snd] in *. left; subst st'; lia. }
  pose proof (no_launch_file E s2) as Hfile. unfold no_launch in Hfile.
  unfold bind at 1 in Hst'.
  destruct (get_output_filename E s2) as [[f|e|] s3]; cbn [fst snd] in *;
    try (left; subst st'; lia).
  pose proof (launches_start_recording E f s3) as Hstart.
  unfold bind at 1 in Hst'.
  destruct (start_recording E f s3) as [[[]|e|] s4]; cbn [fst snd] in *;
    try (right; subst st'; split; [lia | auto]).
  pose proof (no_launch_watching fuel s4) as Hw. unfold no_launch in Hw.
  right. subst st'. split; [lia | auto].
Qed.

End LaunchBound.

(** ** Time stamps in order *)

Lemma ascii_compare_refl (c : ascii) : Ascii.compare c c = Eq.
Proof. unfold Ascii.compare. apply N.compare_refl. Qed.

Lemma compare_append_head (a b1 b2 : string) :
  String.compare (a +:+ b1) (a +:+ b2) = String.compare b1 b2.
Proof.
  induction a as [|c a IH]; [reflexivity|].
  change (String.compare (String c (a +:+ b1)) (String c (a +:+ b2))
          = String.compare b1 b2).
  simpl. rewrite ascii_compare_refl. exact IH.
Qed.

Lemma compare_append_same_length (a1 a2 b1 b2 : string) :
  String.length a1 = String.length a2 ->
  String.compare (a1 +:+ b1) (a2 +:+ b2)
  = lex (String.compare a1 a2) (String.compare b1 b2).
Proof.
  revert a2. induction a1 as [|c1 a1 IH]; intros [|c2 a2] Hlen;
    try discriminate; [reflexivity|].
  change (String.compare (String c1 (a1 +:+ b1)) (String c2 (a2 +:+ b2))
          = lex (String.compare (String c1 a1) (String c2 a2)) (String.compare b1 b2)).
  simpl. destruct (Ascii.compare c1 c2); try reflexivity.
  apply IH. simpl in Hlen. lia.
Qed.

Lemma compare_digit (a b : N) :
  Ascii.compare (digit a) (digit b) = (a mod 10 ?= b mod 10)%N.
Proof.
  unfold Ascii.compare, digit.
  assert (Ha : (a mod 10 < 10)%N) by (apply N.mod_upper_bound; discriminate).
  assert (Hb : (b mod 10 < 10)%N) by (apply N.mod_upper_bound; discriminate).
  pose proof (N.le_0_l (a mod 10)). pose proof (N.le_0_l (b mod 10)).
  rewrite !N_ascii_embedding by lia.
  generalize dependent (a mod 10)%N. generalize dependent (b mod 10)%N.
  intros rb Hb _ ra Ha _.
  destruct (N.compare_spec ra rb); destruct (N.compare_spec (48 + ra) (48 + rb));
    try reflexivity; lia.
Qed.

(** Comparing two numbers by their last digit after the other digits. *)
Lemma decimal_compare (a b : N) :
  (a ?= b)%N = lex (a / 10 ?= b / 10)%N (a mod 10 ?= b mod 10)%N.
Proof.
  pose proof (N.div_mod' a 10) as Ea. pose proof (N.div_mod' b 10) as Eb.
  assert (Ha : (a mod 10 < 10)%N) by (apply N.mod_upper_bound; discriminate).
  assert (Hb : (b mod 10 < 10)%N) by (apply N.mod_upper_bound; discriminate).
  pose proof (N.le_0_l (a mod 10)). pose proof (N.le_0_l (b mod 10)).
  pose proof (N.le_0_l (a / 10)). pose proof (N.le_0_l (b / 10)).
  generalize dependent (a mod 10)%N. generalize dependent (b mod 10)%N.
  generalize dependent (a / 10)%N. generalize dependent (b / 10)%N.
  intros qb _ qa _ rb Eb Hb _ ra Ea Ha _. unfold lex.
  destruct (N.compare_spec qa qb); destruct (N.compare_spec ra rb);
    destruct (N.compare_spec a b); try reflexivity; lia.
Qed.

Lemma compare_pad2 (a b : N) :
  (a < 100)%N -> (b < 100)%N -> String.compare (pad2 a) (pad2 b) = (a ?= b)%N.
Proof.
  intros Ha Hb. unfold pad2. simpl. rewrite !compare_digit.
  assert (Ha1 : (a / 10 < 10)%N) by (apply N.Div0.div_lt_upper_bound; lia).
  assert (Hb1 : (b / 10 < 10)%N) by (apply N.Div0.div_lt_upper_bound; lia).
  rewrite (N.mod_small (a / 10)), (N.mod_small (b / 10)) by assumption.
  rewrite (decimal_compare a b). unfold lex.
  destruct (a / 10 ?= b / 10)%N; try reflexivity.
  destruct (a mod 10 ?= b mod 10)%N; reflexivity.
Qed.

Lemma compare_pad4 (a b : N) :
  (a < 10000)%N -> (b < 10000)%N -> String.compare (pad4 a) (pad4 b) = (a ?= b)%N.
Proof.
  intros Ha Hb. unfold pad4. simpl. rewrite !compare_digit.
  assert (E3 : forall x, (x / 1000 = x / 10 / 10 / 10)%N)
    by (intros x; rewrite !N.Div0.div_div; reflexivity).
  assert (E2 : forall x, (x / 100 = x / 10 / 10)%N)
    by (intros x; rewrite !N.Div0.div_div; reflexivity).
  assert (Ha1 : (a / 1000 < 10)%N) by (apply N.Div0.div_lt_upper_bound; lia).
  assert (Hb1 : (b / 1000 < 10)%N) by (apply N.Div0.div_lt_upper_bound; lia).
  rewrite (N.mod_small (a / 1000)), (N.mod_small (b / 1000)) by assumption.
  rewrite !E3, !E2.
  rewrite (decimal_compare a b), (decimal_compare (a / 10) (b / 10)),
    (decimal_compare (a / 10 / 10) (b / 10 / 10)).
  unfold lex.
  destruct (a / 10 / 10 / 10 ?= b / 10 / 10 / 10)%N; try reflexivity.
  destruct ((a / 10 / 10) mod 10 ?= (b / 10 / 10) mod 10)%N; try reflexivity.
  destruct ((a / 10) mod 10 ?= (b / 10) mod 10)%N; try reflexivity.
  destruct (a mod 10 ?= b mod 10)%N; reflexivity.
Qed.

Lemma length_pad2 (n : N) : String.length (pad2 n) = 2.
Proof. reflexivity. Qed.

Lemma length_pad4 (n : N) : String.length (pad4 n) = 4.
Proof. reflexivity. Qed.

(** From the year 1000 on, time stamps compare as the times do. *)
Lemma compare_strftime (d1 d2 : datetime) :
  valid_datetime d1 -> valid_datetime d2 ->
  (1000 <= year d1)%N -> (1000 <= year d2)%N ->
  String.compare (strftime d1) (strftime d2) = compare_second d1 d2.
Proof.
  intros V1 V2 Y1 Y2. unfold valid_datetime in V1, V2. unfold strftime, compare_second.
  rewrite !fmt_Y_four_digits by assumption.
  rewrite compare_append_same_length by (rewrite !length_pad4; reflexivity).
  rewrite compare_pad4 by lia. f_equal.
  rewrite compare_append_same_length by (rewrite !length_pad2; reflexivity).
  rewrite compare_pad2 by lia. f_equal.
  rewrite compare_append_same_length by (rewrite !length_pad2; reflexivity).
  rewrite compare_pad2 by lia. f_equal.
  rewrite (compare_append_head "_").
  rewrite compare_append_same_length by (rewrite !length_pad2; reflexivity).
  rewrite compare_pad2 by lia. f_equal.
  rewrite compare_append_same_length by (rewrite !length_pad2; reflexivity).
  rewrite !compare_pad2 by lia. reflexivity.
Qed.

(** * The claims *)

(** C1.  At most one capture subprocess is alive at any time.  Run the
    constructor on any file system and then [record_stream] for any number
    of loop turns against any environment: every process table there has
    been on the way has at most one running child, also when the run is cut
    short by an exception or is still going on, and a child that runs is
    the one held in [self.process].  A [Popen] on a table with a running
    child would enter a table with two of them in the history, so a new
    child is started only once the previous one has exited or been
    stopped. *)
Theorem C1_at_most_one_live_capture :
  forall (E : Env) (ch q : string) (dirs0 files0 : list Path) (fuel : nat),
    let st0 := snd (TwitchRecorder_init E ch q (boot dirs0 files0)) in
    let st := snd (record_stream E fuel st0) in
    (forall tbl, tbl ∈ history st -> live_count tbl <= 1)
    /\ live_count (procs st) <= 1
    /\ (forall p, procs st !! p = Some Running -> process st = Some p).
Proof.
  intros E ch q dirs0 files0 fuel st0 st.
  destruct (triple_record_stream E fuel st0 (init_Inv_quiet E ch q dirs0 files0))
    as [[Ho Hn] _].
  fold st in Ho, Hn. split; [exact Hn|]. split; [|exact Ho].
  apply owned_live_le1, Ho.
Qed.

(** The bound of C1 is met: three children in a row, never two at once. *)
Example children_one_after_another :
  history (snd (record_stream env_child_exits 3 st_fresh))
  = [[Exited 1; Exited 1; Running]; [Exited 1; Exited 1];
     [Exited 1; Running]; [Exited 1]; [Running]; []].
Proof. reflexivity. Qed.




(** C3.  A failing handshake does not leave [is_stream_live].  When the
    object has no session and the handshake raises an [Exception] [e], the
    call logs the failure (once in [initialize_twitch], once in its own
    handler) and returns [False].  In the loop, a turn whose connectivity
    check has passed then logs that the channel is not live, sleeps 30
    seconds, and goes on to the next turn. *)
Theorem C3_handshake_failure_is_not_live :
  forall (E : Env) (st : State) (e : exn),
    twitch st = None ->
    env_Twitch E (trace st) (client_id st) (client_secret st) = Raises e ->
    is_Exception e = true ->
    let st' :=
      add_log ERROR ("Error checking stream status: " +:+ str_exn e)
        (add_log ERROR ("Failed to initialize Twitch API: " +:+ str_exn e)
           (add_event (EvTwitch (client_id st) (client_secret st)) st)) in
    is_stream_live E st = (Normal false, st')
    /\ (forall fuel st0,
          is_internet_available E st0 = (Normal true, st) ->
          env_sleep E (trace st') 30 = false ->
          tick E fuel st0
          = (Normal Continue,
             add_event (EvSleep 30)
               (add_log INFO ("Channel " +:+ channel st +:+ " is not live") st'))).
Proof.
  intros E st e Htw Hauth He st'.
  assert (Hlive : is_stream_live E st = (Normal false, st'))
    by (apply is_stream_live_handshake_raises; assumption).
  split; [exact Hlive|].
  intros fuel st0 Hnet Hsleep.
  unfold tick, try_except, tick_body. unfold bind at 1. rewrite Hnet. simpl.
  unfold bind at 1. rewrite Hlive. simpl.
  unfold bind, gets, logging_info, modify, sleep; simpl.
  simpl in Hsleep. rewrite Hsleep. reflexivity.
Qed.

Lemma C3_witness :
  let st := snd (is_internet_available env_auth_fails st_fresh) in
  fst (is_stream_live env_auth_fails st) = Normal false
  /\ fst (tick env_auth_fails 3 st_fresh) = Normal Continue
  /\ trace (snd (tick env_auth_fails 3 st_fresh))
     = EvSleep 30 :: EvTwitch "YOUR_CLIENT_ID" "YOUR_CLIENT_SECRET" :: trace st.
Proof.
  intros st.
  pose proof (C3_handshake_failure_is_not_live env_auth_fails st
                (OtherException "invalid client") eq_refl eq_refl eq_refl)
    as [Hlive Htick].
  specialize (Htick 3 st_fresh eq_refl eq_refl).
  split; [rewrite Hlive; reflexivity|].
  split; rewrite Htick; reflexivity.
Defined.







(** The claim C6 as written fails for a session error met by the query:
    the call returns [False], but the session is kept as it is, and the
    next call asks the same session again without a new handshake. *)
Lemma C6_counterexample :
  let run1 := is_stream_live env_session_expired st_session in
  let run2 := is_stream_live env_session_expired (snd run1) in
  twitch st_session = Some (mkSession 1)
  /\ fst run1 = Normal false
  /\ twitch (snd run1) = Some (mkSession 1)
  /\ trace (snd run2)
     = EvGetStreams ["foo"] :: EvGetStreams ["foo"] :: trace st_session
  /\ twitch (snd run2) <> None.
Proof. vm_compute. repeat split; discriminate. Qed.

(** C6, amended.
    - When the object has no session and the handshake raises an
      [Exception], the call returns [False] and the object still has no
      session.
    - A call on an object without a session always starts with the
      handshake, so a failed handshake is retried by the next call.
    - A call on an object with a session performs no handshake: its only
      interaction is the stream query, and the session is the same
      afterwards, however the query ends.  When the query raises an
      [Exception], the call returns [False]. *)
Theorem C6_session_retry :
  forall (E : Env) (st : State),
    (forall e, twitch st = None ->
       env_Twitch E (trace st) (client_id st) (client_secret st) = Raises e ->
       is_Exception e = true ->
       fst (is_stream_live E st) = Normal false
       /\ twitch (snd (is_stream_live E st)) = None)
    /\ (twitch st = None ->
        exists later,
          trace (snd (is_stream_live E st))
          = later ++ EvTwitch (client_id st) (client_secret st) :: trace st)
    /\ (forall s, twitch st = Some s ->
          trace (snd (is_stream_live E st)) = EvGetStreams [channel st] :: trace st
          /\ twitch (snd (is_stream_live E st)) = Some s
          /\ (forall e, env_get_streams E (trace st) s [channel st] = Raises e ->
                is_Exception e = true ->
                fst (is_stream_live E st) = Normal false)).
Proof.
  intros E st. split; [|split].
  - intros e Htw Hauth He.
    rewrite (is_stream_live_handshake_raises E st e Htw Hauth He).
    split; [reflexivity | exact Htw].
  - intros Htw.
    unfold is_stream_live, initialize_twitch, try_except, bind, gets, Twitch,
      get_streams; simpl.
    rewrite Htw. simpl.
    destruct (env_Twitch E (trace st) (client_id st) (client_secret st)) as [s|e]; simpl.
    + destruct (env_get_streams E _ s [channel st]) as [l|e]; simpl.
      * exists [EvGetStreams [channel st]]. reflexivity.
      * destruct (is_Exception e); exists [EvGetStreams [channel st]]; reflexivity.
    + destruct (is_Exception e) eqn:He; simpl; rewrite ?He; exists []; reflexivity.
  - intros s Htw. rewrite (is_stream_live_with_session E st s Htw). cbv zeta.
    destruct (env_get_streams E (trace st) s [channel st]) as [l|e]; simpl.
    + split; [reflexivity|]. split; [exact Htw|]. intros e' [=].
    + destruct (is_Exception e) eqn:He; simpl;
        (split; [reflexivity|]; split; [exact Htw|]);
        intros e' [= <-] He'; [reflexivity | congruence].
Qed.

Lemma C6_witness :
  fst (is_stream_live env_auth_fails st_fresh) = Normal false
  /\ twitch (snd (is_stream_live env_auth_fails st_fresh)) = None
  /\ trace (snd (is_stream_live env_session_expired st_session))
     = EvGetStreams ["foo"] :: trace st_session
  /\ twitch (snd (is_stream_live env_session_expired st_session)) = Some (mkSession 1).
Proof.
  destruct (proj1 (C6_session_retry env_auth_fails st_fresh)
              (OtherException "invalid client") eq_refl eq_refl eq_refl) as [H1 H2].
  destruct (proj2 (proj2 (C6_session_retry env_session_expired st_session))
              (mkSession 1) eq_refl) as (H3 & H4 & _).
  split; [exact H1|]. split; [exact H2|]. split; [exact H3 | exact H4].
Defined.

(** The claim C7 as written fails in "never throws to its caller": an
    exception of a probe that is no [RequestException] leaves
    [is_internet_available], and no further endpoint is tried. *)
Lemma C7_counterexample :
  is_internet_available env_probe_interrupted st_fresh
  = (Raised KeyboardInterrupt, add_event (EvGet "https://1.1.1.1" 5) st_fresh)
  /\ is_internet_available env_probe_breaks st_fresh
     = (Raised (OtherException "LocationParseError"),
        add_event (EvGet "https://1.1.1.1" 5) st_fresh).
Proof. split; vm_compute; reflexivity. Qed.

(** C7, amended.  [is_internet_available] probes three fixed endpoints in
    order, each with a timeout of 5 seconds.  It returns [True] at the
    first probe that succeeds and tries no endpoint after it; a probe that
    raises a [RequestException] counts as unreachable and the next endpoint
    is tried; it returns [False] exactly when all three probes raised a
    [RequestException].  A [RequestException] never reaches the caller; an
    exception of another class does, from whichever of the three probes
    raised it, and the endpoints after that probe are not tried. *)
Theorem C7_connectivity_probe :
  forall (E : Env) (st : State),
    let u1 := "https://1.1.1.1" in
    let u2 := "https://8.8.8.8" in
    let u3 := "https://www.google.com" in
    let t1 := EvGet u1 5 :: trace st in
    let t2 := EvGet u2 5 :: t1 in
    let t3 := EvGet u3 5 :: t2 in
    let a1 := env_get E (trace st) u1 5 in
    let a2 := env_get E t1 u2 5 in
    let a3 := env_get E t2 u3 5 in
    let r := fst (is_internet_available E st) in
    let tr := trace (snd (is_internet_available E st)) in
    endpoints = [u1; u2; u3]
    /\ (a1 = Returns tt -> r = Normal true /\ tr = t1)
    /\ (unreachable a1 -> a2 = Returns tt -> r = Normal true /\ tr = t2)
    /\ (unreachable a1 -> unreachable a2 -> a3 = Returns tt ->
        r = Normal true /\ tr = t3)
    /\ (unreachable a1 -> unreachable a2 -> unreachable a3 ->
        r = Normal false /\ tr = t3)
    /\ (r = Normal false -> unreachable a1 /\ unreachable a2 /\ unreachable a3)
    /\ (forall e, r = Raised e -> is_RequestException e = false)
    /\ (forall e, a1 = Raises e -> is_RequestException e = false ->
          r = Raised e /\ tr = t1)
    /\ (forall e, unreachable a1 -> a2 = Raises e -> is_RequestException e = false ->
          r = Raised e /\ tr = t2)
    /\ (forall e, unreachable a1 -> unreachable a2 -> a3 = Raises e ->
          is_RequestException e = false -> r = Raised e /\ tr = t3)
    /\ r <> OutOfFuel.
Proof.
  intros E st. cbv zeta.
  unfold is_internet_available, endpoints, for_endpoints.
  unfold try_except, bind, requests_get, ret; simpl.
  destruct (env_get E (trace st) "https://1.1.1.1" 5) as [[]|[|m1| |m1|m1]]; simpl;
    try (repeat split; intros; simplify_eq; simpl in *; done).
  destruct (env_get E (EvGet "https://1.1.1.1" 5 :: trace st) "https://8.8.8.8" 5)
    as [[]|[|m2| |m2|m2]]; simpl;
    try (repeat split; intros; simplify_eq; simpl in *; done).
  destruct (env_get E (EvGet "https://8.8.8.8" 5 :: EvGet "https://1.1.1.1" 5 :: trace st)
              "https://www.google.com" 5) as [[]|[|m3| |m3|m3]]; simpl;
    repeat split; intros; simplify_eq; simpl in *; done.
Qed.

Lemma C7_witness :
  fst (is_internet_available env_two_down st_fresh) = Normal true
  /\ trace (snd (is_internet_available env_two_down st_fresh))
     = EvGet "https://www.google.com" 5 :: EvGet "https://8.8.8.8" 5
       :: EvGet "https://1.1.1.1" 5 :: trace st_fresh.
Proof.
  exact (proj1 (proj2 (proj2 (proj2 (C7_connectivity_probe env_two_down st_fresh))))
           Logic.I Logic.I eq_refl).
Defined.

(** The claim C8 as written fails for channel names with path separators:
    the channels ["a//b"] and ["a/b"] differ, yet the allocator gives
    both the same path; and for ["/x"] the path is not below the output
    directory. *)
Lemma C8_counterexample :
  channel (st_channel "a//b") <> channel (st_channel "a/b")
  /\ fst (get_output_filename env_calm (st_channel "a//b"))
     = fst (get_output_filename env_calm (st_channel "a/b"))
  /\ fst (get_output_filename env_calm (st_channel "a/b"))
     = Normal (parse "recordings/a/b_20240101_120000.mp4")
  /\ fst (get_output_filename env_calm (st_channel "/x"))
     = Normal (parse "/x_20240101_120000.mp4").
Proof.
  split; [vm_compute; discriminate|].
  split; [|split]; vm_compute; reflexivity.
Qed.

(** C8, amended.  The allocator reads the clock once and returns
    [output_dir / "{channel}_{YYYYMMDD_HHMMSS}.mp4"] for the time read.
    For a channel without path separator and the output directory
    [recordings] this is the path
    [recordings/{channel}_{YYYYMMDD_HHMMSS}.mp4].  For two allocations below
    the same output directory: channels without path separator and distinct
    (channel, second) pairs give distinct paths; the same channel, whatever
    its name, gives distinct paths in distinct seconds and the same path
    within one second. *)
Theorem C8_output_filename :
  forall (E1 E2 : Env) (st1 st2 : State),
    let d1 := env_now E1 (trace st1) in
    let d2 := env_now E2 (trace st2) in
    let f1 := joinpath (output_dir st1) (channel st1 +:+ "_" +:+ strftime d1 +:+ ".mp4") in
    let f2 := joinpath (output_dir st2) (channel st2 +:+ "_" +:+ strftime d2 +:+ ".mp4") in
    get_output_filename E1 st1 = (Normal f1, add_event EvNow st1)
    /\ (slash_free (channel st1) = true -> output_dir st1 = parse "recordings" ->
        str f1 = "recordings/" +:+ channel st1 +:+ "_" +:+ strftime d1 +:+ ".mp4")
    /\ (output_dir st1 = output_dir st2 ->
        valid_datetime d1 -> valid_datetime d2 ->
        (slash_free (channel st1) = true -> slash_free (channel st2) = true ->
         (channel st1, to_second d1) <> (channel st2, to_second d2) -> f1 <> f2)
        /\ (channel st1 = channel st2 -> to_second d1 <> to_second d2 -> f1 <> f2))
    /\ (output_dir st1 = output_dir st2 -> channel st1 = channel st2 ->
        to_second d1 = to_second d2 -> f1 = f2).
Proof.
  intros E1 E2 st1 st2 d1 d2 f1 f2.
  destruct (name_tail_facts d1) as [Hf1 Hl1], (name_tail_facts d2) as [Hf2 Hl2].
  fold (name_tail d1) in f1. fold (name_tail d2) in f2.
  split; [reflexivity|]. split; [|split].
  - intros Hch Hod. subst f1. rewrite joinpath_slash_free.
    + rewrite Hod. reflexivity.
    + rewrite slash_free_append, Hch, Hf1. reflexivity.
    + rewrite length_append. lia.
  - intros Hod V1 V2. split.
    + intros Hc1 Hc2 Hne Heq. subst f1 f2.
      rewrite !joinpath_slash_free in Heq;
        rewrite ?slash_free_append, ?length_append, ?Hc1, ?Hc2, ?Hf1, ?Hf2;
        try reflexivity; try lia.
      injection Heq as _ Heq. rewrite Hod in Heq.
      apply app_inv_head in Heq. injection Heq as Heq.
      apply name_inj in Heq as [Hch Ht].
      apply Hne. f_equal; [exact Hch | apply name_tail_inj; assumption].
    + intros Hch Hne Heq. subst f1 f2. rewrite <- Hch in Heq.
      destruct (joinpath_last (output_dir st1) (channel st1) (name_tail d1) Hf1)
        as (i1 & x1 & Hs1 & Hlast1); [lia|].
      destruct (joinpath_last (output_dir st2) (channel st1) (name_tail d2) Hf2)
        as (i2 & x2 & Hs2 & Hlast2); [lia|].
      rewrite Hs1 in Hs2. apply app_inj_tail in Hs2 as [_ <-].
      rewrite Heq, Hlast2 in Hlast1. injection Hlast1 as Hx.
      apply append_inv_head in Hx. symmetry in Hx.
      apply Hne, name_tail_inj; assumption.
  - intros Hod Hch Hsec. subst f1 f2. rewrite Hod, Hch. do 2 f_equal.
    unfold to_second in Hsec. injection Hsec as Hy Hm Hd Hh Hmi Hs.
    unfold name_tail, strftime. rewrite Hy, Hm, Hd, Hh, Hmi, Hs. reflexivity.
Qed.

Lemma C8_witness :
  str (joinpath (output_dir st_fresh)
         (channel st_fresh +:+ "_" +:+ strftime (env_now env_calm (trace st_fresh)) +:+ ".mp4"))
  = "recordings/foo_20240101_120000.mp4"
  /\ fst (get_output_filename env_calm st_fresh)
     <> fst (get_output_filename env_later st_fresh)
  /\ fst (get_output_filename env_calm (st_channel "foo"))
     <> fst (get_output_filename env_calm (st_channel "bar")).
Proof.
  pose proof (C8_output_filename env_calm env_later st_fresh st_fresh)
    as (Hrun1 & Hstr & Hinj & _).
  pose proof (C8_output_filename env_later env_calm st_fresh st_fresh)
    as (Hrun2 & _).
  split; [exact (Hstr eq_refl eq_refl)|].
  split.
  - rewrite Hrun1, Hrun2. cbn [fst]. intros Heq.
    apply (proj2 (Hinj eq_refl ltac:(unfold valid_datetime; simpl; lia)
                    ltac:(unfold valid_datetime; simpl; lia)) eq_refl);
      [discriminate | congruence].
  - pose proof (C8_output_filename env_calm env_calm (st_channel "foo") (st_channel "bar"))
      as (Hfoo & _ & Hinj' & _).
    pose proof (C8_output_filename env_calm env_calm (st_channel "bar") (st_channel "foo"))
      as (Hbar & _).
    rewrite Hfoo, Hbar. cbn [fst]. intros Heq.
    apply (proj1 (Hinj' eq_refl ltac:(unfold valid_datetime; simpl; lia)
                    ltac:(unfold valid_datetime; simpl; lia)) eq_refl eq_refl);
      [discriminate | congruence].
Defined.

(** The claim C9 as written fails when the directory disappears after the
    constructor has run: the allocator returns a path below a directory
    that does not exist, and does not create it. *)
Lemma C9_counterexample :
  let run := get_output_filename env_calm st_dir_removed in
  (output_dir st_fresh ∈ dirs st_fresh)
  /\ (output_dir st_dir_removed ∉ dirs st_dir_removed)
  /\ fst run = Normal (parse "recordings/foo_20240101_120000.mp4")
  /\ dirs (snd run) = []
  /\ (output_dir (snd run) ∉ dirs (snd run)).
Proof.
  vm_compute. repeat split; try (intros H; apply elem_of_nil in H; exact H).
  apply list_elem_of_here.
Qed.

(** C9, amended.  The output directory is made once, by the constructor,
    and idempotently: a constructor that returns leaves [recordings] among
    the directories; when the directory was there before, it returns and
    the file system is as it was; when nothing of that name was there and
    the system grants the request, the directory is added.  The filename
    allocator itself never touches the file system: it always returns, its
    only interaction is reading the clock, and the directories after the
    call are those before it.  Nor does any other call of the program
    remove the directory: after any run of [record_stream] it is still
    there.  So the output directory exists at a call of the allocator
    exactly when nothing outside the program has removed it since the
    constructor ran. *)
Theorem C9_output_dir_made_by_constructor :
  forall (E : Env) (ch q : string) (dirs0 files0 : list Path) (st : State),
    let made := TwitchRecorder_init E ch q (boot dirs0 files0) in
    let rec_dir := parse "recordings" in
    (fst made = Normal tt ->
       output_dir (snd made) = rec_dir /\ rec_dir ∈ dirs (snd made))
    /\ (rec_dir ∈ dirs0 ->
          fst made = Normal tt /\ dirs (snd made) = dirs0 /\ files (snd made) = files0)
    /\ (rec_dir ∉ dirs0 -> rec_dir ∉ files0 ->
          env_mkdir E [] rec_dir = Returns tt ->
          fst made = Normal tt /\ dirs (snd made) = rec_dir :: dirs0)
    /\ (exists f, fst (get_output_filename E st) = Normal f)
    /\ trace (snd (get_output_filename E st)) = EvNow :: trace st
    /\ dirs (snd (get_output_filename E st)) = dirs st
    /\ files (snd (get_output_filename E st)) = files st
    /\ (fst made = Normal tt ->
        forall fuel,
          output_dir (snd (record_stream E fuel (snd made))) = rec_dir
          /\ rec_dir ∈ dirs (snd (record_stream E fuel (snd made)))).
Proof.
  intros E ch q dirs0 files0 st made rec_dir.
  assert (Hmade : fst made = Normal tt ->
            output_dir (snd made) = rec_dir /\ rec_dir ∈ dirs (snd made)).
  { subst made. unfold TwitchRecorder_init, bind, modify, gets, mkdir_exist_ok; simpl.
    fold rec_dir.
    destruct (decide (rec_dir ∈ dirs0)) as [Hin|Hnin]; simpl; [auto|].
    destruct (decide (rec_dir ∈ files0)); simpl; [discriminate|].
    destruct (env_mkdir E [] rec_dir); simpl; [|discriminate].
    intros _. split; [reflexivity | apply list_elem_of_here]. }
  split; [exact Hmade|].
  split; [|split; [|split; [|split; [|split; [|split]]]]].
  - subst made. unfold TwitchRecorder_init, bind, modify, gets, mkdir_exist_ok; simpl.
    fold rec_dir.
    intros Hin. destruct (decide (rec_dir ∈ dirs0)); [|contradiction]. simpl. auto.
  - subst made. unfold TwitchRecorder_init, bind, modify, gets, mkdir_exist_ok; simpl.
    fold rec_dir.
    intros Hnd Hnf Hmk.
    destruct (decide (rec_dir ∈ dirs0)); [contradiction|].
    destruct (decide (rec_dir ∈ files0)); [contradiction|].
    rewrite Hmk. simpl. auto.
  - eexists. reflexivity.
  - reflexivity.
  - reflexivity.
  - reflexivity.
  - intros Hok fuel. destruct (Hmade Hok) as [Hod Hin].
    destruct (fs_record_stream E fuel (snd made)) as (Hd & _ & Ho).
    rewrite Hd, Ho. split; assumption.
Qed.

Lemma C9_witness :
  output_dir st_fresh = parse "recordings"
  /\ parse "recordings" ∈ dirs st_fresh
  /\ parse "recordings" ∈ dirs (snd (record_stream env_child_exits 4 st_fresh)).
Proof.
  pose proof (C9_output_dir_made_by_constructor env_child_exits "foo" "best" [] [] st_fresh)
    as (Hmade & _ & _ & _ & _ & _ & _ & Hrun).
  destruct (Hmade eq_refl) as [Hod Hin].
  split; [exact Hod|]. split; [exact Hin|].
  exact (proj2 (Hrun eq_refl 4)).
Defined.

(** C10.  [start_recording] overwrites the stored handle and looks at no
    earlier one.  Whenever [Popen] succeeds, the only interaction of the
    call is that [Popen] (no poll, signal or wait on a previous child), and
    [self.process] becomes the new child, whatever it held before.  When
    the object held a running child [p], that child still runs afterwards,
    next to the new one, and is no longer referenced: two children are
    alive, so the bound of one rests on the caller. *)
Theorem C10_start_recording_overwrites_handle :
  forall (E : Env) (st : State) (filename : Path),
    env_Popen E (trace st) (command (channel st) (quality st) filename) = Returns tt ->
    let st' := snd (start_recording E filename st) in
    let new := length (procs st) in
    fst (start_recording E filename st) = Normal tt
    /\ trace st' = EvPopen (command (channel st) (quality st) filename) :: trace st
    /\ process st' = Some new
    /\ procs st' = (procs st ++ [Running])%list
    /\ (forall p, process st = Some p -> procs st !! p = Some Running ->
          procs st' !! p = Some Running
          /\ process st' <> Some p
          /\ 2 <= live_count (procs st')).
Proof.
  intros E st filename HP st' new. subst st' new.
  unfold start_recording, bind, gets, Popen, modify, logging_info. simpl.
  rewrite HP. simpl. repeat split.
  - rewrite lookup_app_l; [assumption|]. eapply lookup_lt_Some; eassumption.
  - intros Heq. injection Heq as Heq. apply lookup_lt_Some in H0. lia.
  - rewrite live_count_app. apply live_count_running in H0.
    unfold live_count at 2. simpl. lia.
Qed.

Lemma C10_witness :
  process st_recording = Some 0
  /\ procs (snd (start_recording env_calm file_foo st_recording)) = [Running; Running]
  /\ process (snd (start_recording env_calm file_foo st_recording)) = Some 1
  /\ 2 <= live_count (procs (snd (start_recording env_calm file_foo st_recording))).
Proof.
  destruct (C10_start_recording_overwrites_handle env_calm st_recording file_foo eq_refl)
    as (_ & _ & Hpr & Hprocs & Horphan).
  split; [reflexivity|]. split; [exact Hprocs|]. split; [exact Hpr|].
  exact (proj2 (proj2 (Horphan 0 eq_refl eq_refl))).
Defined.

(** * Further properties of the program *)

(** ** The live-status check *)



(** X2.  The truth value and the lazy session.  With a session, the only
    interaction of a call is the stream query for the object's channel,
    and it returns [True] exactly when the answer holds a stream.  Without
    a session the handshake with the object's credentials comes first; the
    session it yields is stored, whatever the query then does, and the
    result is again [True] exactly when the answer holds a stream. *)
Theorem is_stream_live_first_use_stores_session :
  forall (E : Env) (st : State) (s : Session),
    (twitch st = Some s ->
     forall l, env_get_streams E (trace st) s [channel st] = Returns l ->
       is_stream_live E st
       = (Normal (Nat.ltb 0 (length l)), add_event (EvGetStreams [channel st]) st))
    /\ (twitch st = None ->
        env_Twitch E (trace st) (client_id st) (client_secret st) = Returns s ->
        let hs := EvTwitch (client_id st) (client_secret st) in
        twitch (snd (is_stream_live E st)) = Some s
        /\ trace (snd (is_stream_live E st))
           = EvGetStreams [channel st] :: hs :: trace st
        /\ forall l, env_get_streams E (hs :: trace st) s [channel st] = Returns l ->
             fst (is_stream_live E st) = Normal (Nat.ltb 0 (length l))).
Proof.
  intros E st s. split.
  - intros Htw l Hq. rewrite (is_stream_live_with_session E st s Htw). cbv zeta.
    rewrite Hq. destruct l; reflexivity.
  - intros Htw Ha hs. rewrite (is_stream_live_first_use E st Htw). cbv zeta.
    rewrite Ha. simpl. fold hs.
    destruct (env_get_streams E (hs :: trace st) s [channel st]) as [l|e]; simpl.
    + repeat split. intros l' [= <-]. destruct l; reflexivity.
    + destruct (is_Exception e); repeat split; intros l' [=].
Qed.

Lemma is_stream_live_first_use_stores_session_witness :
  twitch (snd (is_stream_live env_session_expired st_fresh)) = Some (mkSession 1)
  /\ fst (is_stream_live env_calm st_fresh) = Normal true
  /\ is_stream_live env_offline st_session
     = (Normal false, add_event (EvGetStreams ["foo"]) st_session).
Proof.
  destruct (is_stream_live_first_use_stores_session env_session_expired st_fresh
              (mkSession 1)) as [_ Hx].
  destruct (is_stream_live_first_use_stores_session env_calm st_fresh
              (mkSession 1)) as [_ Hc].
  destruct (is_stream_live_first_use_stores_session env_offline st_session
              (mkSession 1)) as [Ho _].
  split; [exact (proj1 (Hx eq_refl eq_refl))|].
  split; [exact (proj2 (proj2 (Hc eq_refl eq_refl)) [mkStream "foo"] eq_refl)|].
  exact (Ho eq_refl [] eq_refl).
Defined.

(** X3.  A session is never replaced.  From a state in which the object
    has a session, any run of [record_stream] ends with the same session
    and has made no handshake on the way, whatever the platform answers. *)
Theorem session_is_never_replaced :
  forall (E : Env) (fuel : nat) (st : State) (s : Session),
    twitch st = Some s ->
    twitch (snd (record_stream E fuel st)) = Some s
    /\ handshakes (trace (snd (record_stream E fuel st))) = handshakes (trace st).
Proof. intros E fuel st s Hs. exact (session_kept_record_stream E fuel st s Hs). Qed.

Lemma session_is_never_replaced_witness :
  twitch (snd (record_stream env_session_expired 4 st_session)) = Some (mkSession 1)
  /\ handshakes (trace (snd (record_stream env_session_expired 4 st_session))) = 1.
Proof.
  exact (session_is_never_replaced env_session_expired 4 st_session (mkSession 1) eq_refl).
Defined.

(** ** The interactions of the loop *)

(** X4.  The loop only ever makes its fixed interactions.  Over any run
    of [record_stream], channel, quality and credentials stay as they
    were, and every interaction added to the trace is one of: a probe of
    one of the three endpoints with 5 seconds, the handshake with the
    object's credentials, the stream query for the object's channel alone,
    a clock reading, a launch of the [streamlink] command for the object's
    channel and quality, a poll or a signal, a wait of 10 seconds, a sleep
    of 30 seconds.  It never makes a directory. *)
Theorem loop_interactions_are_fixed :
  forall (E : Env) (fuel : nat) (st : State),
    let st' := snd (record_stream E fuel st) in
    channel st' = channel st /\ quality st' = quality st /\
    client_id st' = client_id st /\ client_secret st' = client_secret st /\
    exists new,
      trace st' = new ++ trace st
      /\ Forall (expected (channel st) (quality st) (client_id st) (client_secret st)) new.
Proof.
  intros E fuel st st'.
  destruct (steady_record_stream E fuel st) as (Hc & Hq & Hi & Hs & Hg).
  repeat split; try assumption. apply grows_app. exact Hg.
Qed.

(** ** The turns of the loop *)

(** X5.  Waiting turns.  A turn whose connectivity check returns [False]
    logs the warning and sleeps 30 seconds: the platform is not asked and
    nothing is launched.  A turn whose connectivity check passes and whose
    live check returns [False] logs that the channel is not live and
    sleeps 30 seconds: nothing is launched.  In both cases the loop goes
    on to the next turn, unless the sleep is interrupted. *)
Theorem waiting_turns :
  forall (E : Env) (fuel : nat) (st st1 : State),
    (is_internet_available E st = (Normal false, st1) ->
     env_sleep E (trace st1) 30 = false ->
     tick E fuel st
     = (Normal Continue,
        add_event (EvSleep 30) (add_log WARNING "No internet connection" st1)))
    /\ (forall st2,
          is_internet_available E st = (Normal true, st1) ->
          is_stream_live E st1 = (Normal false, st2) ->
          env_sleep E (trace st2) 30 = false ->
          tick E fuel st
          = (Normal Continue,
             add_event (EvSleep 30)
               (add_log INFO ("Channel " +:+ channel st2 +:+ " is not live") st2))).
Proof.
  intros E fuel st st1. split.
  - intros Hnet Hsleep. unfold tick, try_except, tick_body.
    unfold bind at 1. rewrite Hnet. simpl.
    unfold bind, logging_warning, modify, sleep; simpl. rewrite Hsleep. reflexivity.
  - intros st2 Hnet Hlive Hsleep. unfold tick, try_except, tick_body.
    unfold bind at 1. rewrite Hnet. simpl.
    unfold bind at 1. rewrite Hlive. simpl.
    unfold bind, gets, logging_info, modify, sleep; simpl. rewrite Hsleep. reflexivity.
Qed.

Lemma waiting_turns_witness :
  trace (snd (tick env_no_network 3 st_fresh))
  = [EvSleep 30; EvGet "https://www.google.com" 5; EvGet "https://8.8.8.8" 5;
     EvGet "https://1.1.1.1" 5; EvMkdir (parse "recordings")]
  /\ log (snd (tick env_offline 3 st_fresh))
     = [(INFO, "Channel foo is not live");
        (INFO, "Successfully authenticated with Twitch API")].
Proof.
  destruct (waiting_turns env_no_network 3 st_fresh
              (snd (is_internet_available env_no_network st_fresh))) as [Hdown _].
  destruct (waiting_turns env_offline 3 st_fresh
              (snd (is_internet_available env_offline st_fresh))) as [_ Hoff].
  rewrite (Hdown eq_refl eq_refl).
  rewrite (Hoff (snd (is_stream_live env_offline
                        (snd (is_internet_available env_offline st_fresh))))
             eq_refl eq_refl eq_refl).
  split; reflexivity.
Defined.

(** X6.  The turn that starts a recording.  When the connectivity check
    and the live check both return [True], the turn reads the clock,
    launches [streamlink] once, with the allocated file as the last
    argument, stores the new child as the handle, logs the start, and goes
    over to watching.  If the child has exited at the first poll, the turn
    is over with that: no stop and no sleep, so the next turn follows at
    once. *)
Theorem recording_turn_starts_one_child :
  forall (E : Env) (fuel : nat) (st st1 st2 : State),
    is_internet_available E st = (Normal true, st1) ->
    is_stream_live E st1 = (Normal true, st2) ->
    let f := joinpath (output_dir st2)
               (channel st2 +:+ "_" +:+ strftime (env_now E (trace st2)) +:+ ".mp4") in
    let cmd := command (channel st2) (quality st2) f in
    let p := length (procs st2) in
    let started :=
      add_log INFO ("Started recording to " +:+ str f)
        (set_process (Some p)
           (set_procs (procs st2 ++ [Running])
              (add_event (EvPopen cmd) (add_event EvNow st2)))) in
    env_Popen E (EvNow :: trace st2) cmd = Returns tt ->
    last cmd = Some (str f)
    /\ tick_body E fuel st = (monitor E fuel ;; ret Continue) started
    /\ (forall c, env_poll E (trace started) p = Some c ->
          tick E (S fuel) st
          = (Normal Continue,
             set_procs (<[p := Exited c]> (procs started))
               (add_event (EvPoll p) started))).
Proof.
  intros E fuel st st1 st2 Hnet Hlive f cmd p started HP.
  assert (Hbody : forall n, tick_body E n st = (monitor E n ;; ret Continue) started).
  { intros n. unfold tick_body.
    unfold bind at 1. rewrite Hnet. simpl.
    unfold bind at 1. rewrite Hlive. simpl.
    unfold bind at 1, get_output_filename, bind, now, gets, ret. simpl.
    unfold start_recording, bind, gets, Popen, modify, logging_info. simpl.
    fold f. fold cmd. rewrite HP. reflexivity. }
  split; [reflexivity|]. split; [apply Hbody|].
  intros c Hpoll. unfold tick, try_except. rewrite Hbody.
  unfold bind at 1. rewrite monitor_S.
  assert (Hrun : status_of (procs started) p = Running).
  { unfold status_of, started, p. simpl.
    rewrite lookup_app_r by lia. rewrite Nat.sub_diag. reflexivity. }
  change (process started) with (Some p).
  unfold bind, poll. rewrite Hrun, Hpoll. reflexivity.
Qed.

Lemma recording_turn_starts_one_child_witness :
  tick env_child_exits 1 st_fresh
  = (Normal Continue,
     set_procs [Exited 1]
       (add_event (EvPoll 0)
          (snd (start_recording env_child_exits file_foo
                  (add_event EvNow
                     (snd (is_stream_live env_child_exits
                             (snd (is_internet_available env_child_exits st_fresh))))))))).
Proof.
  pose proof (recording_turn_starts_one_child env_child_exits 0 st_fresh
                (snd (is_internet_available env_child_exits st_fresh))
                (snd (is_stream_live env_child_exits
                        (snd (is_internet_available env_child_exits st_fresh))))
                eq_refl eq_refl eq_refl) as (_ & _ & Hturn).
  exact (Hturn 1%Z eq_refl).
Defined.

(** X7.  At most one launch in a turn, and only after both checks.  A
    turn of the loop calls [Popen] at most once; and when it calls it, the
    connectivity check and the live check of that turn have both returned
    [True]. *)
Theorem at_most_one_launch_per_turn :
  forall (E : Env) (fuel : nat) (st : State),
    let st' := snd (tick E fuel st) in
    launches (trace st') <= S (launches (trace st))
    /\ (launches (trace st) < launches (trace st') ->
        fst (is_internet_available E st) = Normal true
        /\ fst (is_stream_live E (snd (is_internet_available E st))) = Normal true).
Proof.
  intros E fuel st.
  pose proof (launches_tick_body E fuel st) as Hbody.
  assert (Hst : launches (trace (snd (tick E fuel st)))
                = launches (trace (snd (tick_body E fuel st)))).
  { unfold tick, try_except.
    destruct (tick_body E fuel st) as [[c|e|] s1]; cbn [fst snd]; try reflexivity.
    destruct (is_KeyboardInterrupt e || is_Exception e); [|reflexivity].
    apply (no_launch_tick_handler E e s1). }
  cbv zeta. rewrite Hst. destruct Hbody as [Hsame|(Hone & Hnet & Hlive)].
  - split; lia.
  - split; [lia | auto].
Qed.

Lemma at_most_one_launch_per_turn_witness :
  launches (trace (snd (tick env_child_exits 2 st_fresh))) = 1
  /\ fst (is_internet_available env_child_exits st_fresh) = Normal true.
Proof.
  split; [reflexivity|].
  exact (proj1 (proj2 (at_most_one_launch_per_turn env_child_exits 2 st_fresh)
                  ltac:(vm_compute; lia))).
Defined.

(** ** Watching, stopping and restarting *)

(** X8.  A healthy recording is left alone.  While the child keeps
    running, the channel stays live and nobody interrupts, watching never
    ends and never touches the child: after any number of rounds the
    process table and the handle are as they were, and the interactions
    made are three per round, a poll of the child, the stream query and a
    sleep of 30 seconds; so no signal and no wait. *)
Theorem healthy_recording_is_left_alone :
  forall (E : Env) (fuel : nat) (st : State) (p : pid) (s : Session),
    process st = Some p ->
    status_of (procs st) p = Running ->
    twitch st = Some s ->
    (forall tr, env_poll E tr p = None) ->
    (forall tr, exists x l, env_get_streams E tr s [channel st] = Returns (x :: l)) ->
    (forall tr, env_sleep E tr 30 = false) ->
    let st' := snd (monitor E fuel st) in
    fst (monitor E fuel st) = OutOfFuel
    /\ procs st' = procs st /\ process st' = Some p
    /\ exists new,
         trace st' = new ++ trace st /\ length new = 3 * fuel
         /\ Forall (fun ev => ev = EvPoll p \/ ev = EvGetStreams [channel st]
                              \/ ev = EvSleep 30) new.
Proof.
  intros E fuel. induction fuel as [|fuel IH]; intros st p s Hheld Hrun Htw Hpoll Hlive Hsleep.
  { simpl. repeat split; try assumption. exists []. repeat split. constructor. }
  destruct (Hlive (EvPoll p :: trace st)) as (x & l & Hq).
  set (st1 := add_event (EvSleep 30)
                (add_event (EvGetStreams [channel st]) (add_event (EvPoll p) st))).
  assert (Hstep : monitor E (S fuel) st = monitor E fuel st1).
  { rewrite monitor_S, Hheld. unfold bind at 1, poll. rewrite Hrun, Hpoll.
    unfold bind at 1.
    rewrite (is_stream_live_with_session E (add_event (EvPoll p) st) s Htw).
    cbv zeta. simpl. rewrite Hq. simpl.
    unfold bind, sleep. simpl. rewrite Hsleep. reflexivity. }
  cbv zeta. rewrite Hstep.
  destruct (IH st1 p s Hheld Hrun Htw Hpoll Hlive Hsleep)
    as (Hr & Hp & Hpr & new & Htr & Hlen & Hall).
  split; [exact Hr|]. split; [exact Hp|]. split; [exact Hpr|].
  exists (new ++ [EvSleep 30; EvGetStreams [channel st]; EvPoll p]).
  split; [rewrite Htr, <- app_assoc; reflexivity|].
  split; [rewrite length_app, Hlen; simpl; lia|].
  apply Forall_app. split; [exact Hall|].
  constructor; [right; right; reflexivity|].
  constructor; [right; left; reflexivity|].
  constructor; [left; reflexivity | constructor].
Qed.

Lemma healthy_recording_is_left_alone_witness :
  fst (monitor env_calm 5 st_session_recording) = OutOfFuel
  /\ procs (snd (monitor env_calm 5 st_session_recording)) = [Running]
  /\ process (snd (monitor env_calm 5 st_session_recording)) = Some 0.
Proof.
  destruct (healthy_recording_is_left_alone env_calm 5 st_session_recording 0
              (mkSession 1) eq_refl eq_refl eq_refl
              (fun _ => eq_refl)
              (fun _ => ex_intro _ (mkStream "foo") (ex_intro _ [] eq_refl))
              (fun _ => eq_refl)) as (Hr & Hp & Hpr & _).
  split; [exact Hr|]. split; [exact Hp | exact Hpr].
Defined.



(** X10.  Stop, then start, leaves exactly one child.  From a state in
    which every running child is the one held, a [stop_recording] that
    returns followed by a [start_recording] whose [Popen] succeeds ends
    with exactly one running child, the new one, and it is the one
    held. *)
Theorem restart_leaves_one_child :
  forall (E : Env) (st st1 : State) (f : Path),
    (forall p, procs st !! p = Some Running -> process st = Some p) ->
    stop_recording E st = (Normal tt, st1) ->
    env_Popen E (trace st1) (command (channel st1) (quality st1) f) = Returns tt ->
    let st2 := snd (start_recording E f st1) in
    live_count (procs st1) = 0
    /\ live_count (procs st2) = 1
    /\ process st2 = Some (length (procs st1))
    /\ procs st2 !! length (procs st1) = Some Running
    /\ (forall p, procs st2 !! p = Some Running -> process st2 = Some p).
Proof.
  intros E st st1 f Ho Hstop HP st2.
  assert (Hq : forall i, procs st1 !! i <> Some Running).
  { revert Hstop.
    unfold stop_recording, bind, gets, try_except, terminate, wait, kill, modify,
      logging_info; simpl.
    destruct (process st) as [p|] eqn:Hheld; simpl.
    2:{ intros [= <-] i Hi. specialize (Ho i Hi). congruence. }
    assert (Hone : forall i, procs st !! i = Some Running -> i = p)
      by (intros i Hi; specialize (Ho i Hi); congruence).
    destruct (status_of (procs st) p) as [|c] eqn:Hs; simpl; rewrite ?Hs; simpl.
    - destruct (env_wait E (EvSigTerm p :: trace st) p 10); simpl; rewrite ?Hs; simpl;
        intros [= <-]; simpl; try discriminate; apply mark_exited_quiet; exact Hone.
    - intros [= <-] i Hi. simpl in Hi. specialize (Hone i Hi). subst i.
      eapply status_of_exited; eassumption. }
  assert (H0 : live_count (procs st1) = 0) by (apply live_count_nil_running; exact Hq).
  subst st2. unfold start_recording, bind, gets, Popen, modify, logging_info. simpl.
  rewrite HP. simpl.
  split; [exact H0|]. split; [rewrite live_count_app, H0; reflexivity|].
  split; [reflexivity|].
  split; [rewrite lookup_app_r by lia; rewrite Nat.sub_diag; reflexivity|].
  intros i Hi. destruct (decide (i < length (procs st1))) as [Hlt|Hge].
  - rewrite lookup_app_l in Hi by exact Hlt. destruct (Hq i Hi).
  - apply lookup_lt_Some in Hi. rewrite length_app in Hi. simpl in Hi.
    f_equal. lia.
Qed.

Lemma restart_leaves_one_child_witness :
  procs (snd (start_recording env_calm file_foo
                (snd (stop_recording env_calm st_recording))))
  = [Exited (-15); Running]
  /\ live_count (procs (snd (start_recording env_calm file_foo
                              (snd (stop_recording env_calm st_recording))))) = 1.
Proof.
  split; [reflexivity|].
  refine (proj1 (proj2 (restart_leaves_one_child env_calm st_recording
                          (snd (stop_recording env_calm st_recording)) file_foo
                          _ eq_refl eq_refl))).
  intros [|p] Hp; [reflexivity | discriminate].
Defined.

(** ** File names in time order *)

(** X12.  File names sort by time.  For one channel without path
    separator and one output directory, two calls of [get_output_filename]
    at wall-clock times from the year 1000 on, where [%Y] has its four
    digits, return paths that compare, as strings, the way the two times
    compare to the second: the earlier recording has the smaller path, and
    equal paths mean the same second. *)
Theorem file_names_sort_by_time :
  forall (E1 E2 : Env) (st1 st2 : State),
    let d1 := env_now E1 (trace st1) in
    let d2 := env_now E2 (trace st2) in
    channel st1 = channel st2 -> output_dir st1 = output_dir st2 ->
    slash_free (channel st1) = true ->
    valid_datetime d1 -> valid_datetime d2 ->
    (1000 <= year d1)%N -> (1000 <= year d2)%N ->
    exists f1 f2,
      fst (get_output_filename E1 st1) = Normal f1
      /\ fst (get_output_filename E2 st2) = Normal f2
      /\ String.compare (str f1) (str f2) = compare_second d1 d2.
Proof.
  intros E1 E2 st1 st2 d1 d2 Hch Hod Hfree V1 V2 Y1 Y2.
  exists (joinpath (output_dir st1) (channel st1 +:+ name_tail d1)),
         (joinpath (output_dir st2) (channel st2 +:+ name_tail d2)).
  split; [reflexivity|]. split; [reflexivity|].
  destruct (name_tail_facts d1) as [Hf1 Hl1], (name_tail_facts d2) as [Hf2 Hl2].
  rewrite <- Hch, <- Hod.
  rewrite !joinpath_slash_free;
    rewrite ?slash_free_append, ?length_append, ?Hfree, ?Hf1, ?Hf2;
    try reflexivity; try lia.
  destruct (str_snoc (root (output_dir st1)) (parts (output_dir st1))) as [pre Hpre].
  rewrite !Hpre. unfold name_tail.
  rewrite !compare_append_head.
  rewrite compare_append_same_length by (rewrite !length_strftime by assumption; reflexivity).
  rewrite compare_strftime by assumption.
  destruct (compare_second d1 d2); reflexivity.
Qed.

Lemma file_names_sort_by_time_witness :
  exists f1 f2,
    fst (get_output_filename env_calm st_fresh) = Normal f1
    /\ fst (get_output_filename env_later st_fresh) = Normal f2
    /\ String.compare (str f1) (str f2) = Lt.
Proof.
  exact (file_names_sort_by_time env_calm env_later st_fresh st_fresh
           eq_refl eq_refl eq_refl
           ltac:(unfold valid_datetime; simpl; lia)
           ltac:(unfold valid_datetime; simpl; lia)
           ltac:(simpl; lia) ltac:(simpl; lia)).
Defined.
